(** * The keycode conversion script [app/scripts/convert.py]

    A shallow embedding of the script and of the parts of the Python
    library it calls ([bytes.decode], [str.split], [re], [pathlib]),
    followed by the properties of the script.

    Python strings are sequences of code points ([pystr]), byte strings
    are lists of [byte].  The script's effects (reading and writing
    files, printing) are threaded through an explicit [world]. *)

From Stdlib Require Import NArith Lia.
From Stdlib.Strings Require Import Byte.
From stdpp Require Import base option list gmap strings pretty.

Local Open Scope N_scope.

#[local] Set Default Proof Using "Type".

(** ** Python values *)

(** A [str]: the sequence of its code points. *)
Definition pystr := list N.

(** A [bytes] object. *)
Definition pybytes := list byte.

(** An ASCII literal of the source, as a [str]. *)
Definition py (s : string) : pystr :=
  map Ascii.N_of_ascii (String.list_ascii_of_string s).

(** Exceptions the script can let escape. *)
Inductive exn :=
| OSError
| UnicodeDecodeError
| UnicodeEncodeError
| JSONDecodeError
| KeyError (key : pystr)
| TypeError
| IndexError
| re_error.

(** The result of running a piece of the script: a value, an escaping
    exception, or [Beyond] when the input leaves the fragment of the
    Python library that is embedded here. *)
Inductive outcome (A : Type) :=
| Ret (a : A)
| Raise (e : exn)
| Beyond.
Arguments Ret {A} a.
Arguments Raise {A} e.
Arguments Beyond {A}.

Definition obind {A B} (x : outcome A) (f : A -> outcome B) : outcome B :=
  match x with
  | Ret a => f a
  | Raise e => Raise e
  | Beyond => Beyond
  end.

(** ** [bytes.decode("utf-8")] and [str.encode("utf-8")] *)

Definition byte_of_N (n : N) : byte := default "000"%byte (Byte.of_N n).

(** The payload of a continuation byte [10xxxxxx]. *)
Definition continuation (b : byte) : option N :=
  let n := Byte.to_N b in
  if (128 <=? n) && (n <? 192) then Some (n - 128) else None.

(** The strict decoder: shortest form only, no surrogates, nothing above
    U+10FFFF.  [None] is Python's [UnicodeDecodeError]. *)
Fixpoint utf8_decode (bs : pybytes) : option pystr :=
  match bs with
  | [] => Some []
  | b1 :: t1 =>
    let n1 := Byte.to_N b1 in
    if n1 <? 128 then cons n1 <$> utf8_decode t1
    else if n1 <? 192 then None
    else if n1 <? 224 then
      match t1 with
      | b2 :: t2 =>
        match continuation b2 with
        | Some c2 =>
          let cp := (n1 - 192) * 64 + c2 in
          if 128 <=? cp then cons cp <$> utf8_decode t2 else None
        | None => None
        end
      | _ => None
      end
    else if n1 <? 240 then
      match t1 with
      | b2 :: b3 :: t3 =>
        match continuation b2, continuation b3 with
        | Some c2, Some c3 =>
          let cp := (n1 - 224) * 4096 + c2 * 64 + c3 in
          if (2048 <=? cp) && negb ((55296 <=? cp) && (cp <=? 57343))
          then cons cp <$> utf8_decode t3 else None
        | _, _ => None
        end
      | _ => None
      end
    else if n1 <? 248 then
      match t1 with
      | b2 :: b3 :: b4 :: t4 =>
        match continuation b2, continuation b3, continuation b4 with
        | Some c2, Some c3, Some c4 =>
          let cp := (n1 - 240) * 262144 + c2 * 4096 + c3 * 64 + c4 in
          if (65536 <=? cp) && (cp <=? 1114111)
          then cons cp <$> utf8_decode t4 else None
        | _, _, _ => None
        end
      | _ => None
      end
    else None
  end.

(** The encoding of one code point; [None] is [UnicodeEncodeError]
    (a surrogate) or a number that is no code point. *)
Definition utf8_encode_char (c : N) : option pybytes :=
  if c <? 128 then Some [byte_of_N c]
  else if c <? 2048 then
    Some [byte_of_N (192 + c / 64); byte_of_N (128 + c mod 64)]
  else if c <? 65536 then
    if (55296 <=? c) && (c <=? 57343) then None
    else Some [byte_of_N (224 + c / 4096);
               byte_of_N (128 + (c / 64) mod 64);
               byte_of_N (128 + c mod 64)]
  else if c <=? 1114111 then
    Some [byte_of_N (240 + c / 262144);
          byte_of_N (128 + (c / 4096) mod 64);
          byte_of_N (128 + (c / 64) mod 64);
          byte_of_N (128 + c mod 64)]
  else None.

Fixpoint utf8_encode (s : pystr) : option pybytes :=
  match s with
  | [] => Some []
  | c :: t =>
    match utf8_encode_char c, utf8_encode t with
    | Some bs, Some rest => Some (bs ++ rest)
    | _, _ => None
    end
  end.

(** ** [str.split] and [str.join] with a one-character separator *)

Definition newline : N := 10.

(** [s.split(sep)]: never empty, one more element than separators. *)
Fixpoint str_split (sep : N) (s : pystr) : list pystr :=
  match s with
  | [] => [[]]
  | c :: t =>
    if c =? sep then [] :: str_split sep t
    else match str_split sep t with
         | l :: ls => (c :: l) :: ls
         | [] => [[c]]
         end
  end.

(** [sep.join(parts)]. *)
Fixpoint str_join (sep : N) (ls : list pystr) : pystr :=
  match ls with
  | [] => []
  | [l] => l
  | l :: ls' => l ++ sep :: str_join sep ls'
  end.

(** ** The [re] module: patterns *)

(** The code point of a one-character ASCII literal. *)
Definition ch (s : string) : N :=
  match py s with
  | [c] => c
  | _ => 0
  end.

(** The fragment of the pattern language that the script's pattern
    uses. *)
Inductive regex :=
| Eps
| Lit (c : N)                 (* an ordinary character *)
| WordChar                    (* \w *)
| OneOf (cs : list N)         (* [...] of plain characters *)
| Boundary                    (* \b *)
| Seq (r1 r2 : regex)
| Alt (r1 r2 : regex)
| Star (r : regex)            (* greedy r* *)
| Count (n : nat) (r : regex) (* r{n} *)
| Group (i : nat) (r : regex) (* the i-th capturing group *).

(** A compiled pattern object: its tree and [pattern.groups]. *)
Record pattern := { rx : regex; groups : nat }.

(** The characters with a special meaning in a pattern. *)
Definition is_meta (c : N) : bool :=
  existsb (N.eqb c) (py ".^$*+?{}[]\|()").

Definition is_digit (c : N) : bool := (48 <=? c) && (c <=? 57).

Fixpoint mk_seq (rs : list regex) : regex :=
  match rs with
  | [] => Eps
  | r :: rs' => Seq r (mk_seq rs')
  end.

Fixpoint mk_alt (r : regex) (rs : list regex) : regex :=
  match rs with
  | [] => r
  | r' :: rs' => Alt r (mk_alt r' rs')
  end.

(** What the parser holds for one open parenthesis (or for the top
    level): the finished branches and the items of the current branch,
    both latest first. *)
Record frame := {
  branches : list regex;
  items : list regex;
  gindex : nat
}.

Inductive pmode :=
| Normal
| Escape                      (* after a backslash *)
| InSet (acc : list N)        (* inside [...] *)
| InCount (n : option nat)    (* inside {...} *).

Record pstate := {
  mode : pmode;
  cur : frame;
  outer : list frame;
  opened : nat
}.

Definition push (r : regex) (st : pstate) : pstate :=
  {| mode := Normal;
     cur := {| branches := branches (cur st);
               items := r :: items (cur st);
               gindex := gindex (cur st) |};
     outer := outer st;
     opened := opened st |}.

Definition with_mode (m : pmode) (st : pstate) : pstate :=
  {| mode := m; cur := cur st; outer := outer st; opened := opened st |}.

(** The items a quantifier may follow in this fragment. *)
Definition repeatable (r : regex) : bool :=
  match r with
  | Lit _ | WordChar | OneOf _ => true
  | _ => false
  end.

Definition requantify (f : regex -> regex) (st : pstate) : option pstate :=
  match items (cur st) with
  | r :: rs =>
    if repeatable r then
      Some {| mode := Normal;
              cur := {| branches := branches (cur st);
                        items := f r :: rs;
                        gindex := gindex (cur st) |};
              outer := outer st;
              opened := opened st |}
    else None
  | [] => None
  end.

Definition close_frame (f : frame) : regex :=
  match rev (mk_seq (rev (items f)) :: branches f) with
  | r :: rs => mk_alt r rs
  | [] => Eps
  end.

(** One character of the pattern.  [None]: Python rejects the pattern,
    or the pattern leaves the fragment. *)
Definition pstep (c : N) (st : pstate) : option pstate :=
  match mode st with
  | Normal =>
    if negb (is_meta c) then Some (push (Lit c) st)
    else if c =? ch "\" then Some (with_mode Escape st)
    else if c =? ch "[" then Some (with_mode (InSet []) st)
    else if c =? ch "]" then Some (push (Lit c) st)
    else if c =? ch "}" then Some (push (Lit c) st)
    else if c =? ch "*" then requantify Star st
    else if c =? ch "{" then
      with_mode (InCount None) <$> requantify (fun r => r) st
    else if c =? ch "|" then
      Some {| mode := Normal;
              cur := {| branches := mk_seq (rev (items (cur st)))
                                      :: branches (cur st);
                        items := [];
                        gindex := gindex (cur st) |};
              outer := outer st;
              opened := opened st |}
    else if c =? ch "(" then
      Some {| mode := Normal;
              cur := {| branches := []; items := [];
                        gindex := S (opened st) |};
              outer := cur st :: outer st;
              opened := S (opened st) |}
    else if c =? ch ")" then
      match outer st with
      | f :: fs =>
        Some {| mode := Normal;
                cur := {| branches := branches f;
                          items := Group (gindex (cur st))
                                     (close_frame (cur st)) :: items f;
                          gindex := gindex f |};
                outer := fs;
                opened := opened st |}
      | [] => None
      end
    else None
  | Escape =>
    if c =? ch "w" then Some (push WordChar st)
    else if c =? ch "b" then Some (push Boundary st)
    else None
  | InSet acc =>
    if c =? ch "]" then
      match acc with
      | [] => None
      | _ => Some (push (OneOf (rev acc)) st)
      end
    else if (c =? ch "\") || (c =? ch "^") || (c =? ch "-") || (c =? ch "[")
    then None
    else Some (with_mode (InSet (c :: acc)) st)
  | InCount n =>
    if is_digit c then
      Some (with_mode
              (InCount (Some (default 0 n * 10 + N.to_nat (c - 48))%nat)) st)
    else if c =? ch "}" then
      match n with
      | Some k => requantify (Count k) st
      | None => None
      end
    else None
  end.

Fixpoint parse_loop (p : pystr) (st : pstate) : option pstate :=
  match p with
  | [] => Some st
  | c :: t =>
    match pstep c st with
    | Some st' => parse_loop t st'
    | None => None
    end
  end.

Definition parse_start : pstate :=
  {| mode := Normal;
     cur := {| branches := []; items := []; gindex := 0 |};
     outer := [];
     opened := 0 |}.

(** [re.compile(p)] on the fragment. *)
Definition re_compile (p : pystr) : option pattern :=
  match parse_loop p parse_start with
  | Some st =>
    match mode st, outer st with
    | Normal, [] => Some {| rx := close_frame (cur st); groups := opened st |}
    | _, _ => None
    end
  | None => None
  end.

(** ** The [re] module: replacement templates *)

Inductive titem :=
| TLit (c : N)
| TGroup (g : nat).

Definition is_octal (c : N) : bool := (48 <=? c) && (c <=? 55).

Definition is_ascii_letter (c : N) : bool :=
  (65 <=? c) && (c <=? 90) || (97 <=? c) && (c <=? 122).

Definition digit_val (c : N) : nat := N.to_nat (c - 48).

(** The one-letter escapes a template knows. *)
Definition template_escape (c : N) : option N :=
  if c =? ch "a" then Some 7
  else if c =? ch "b" then Some 8
  else if c =? ch "f" then Some 12
  else if c =? ch "n" then Some 10
  else if c =? ch "r" then Some 13
  else if c =? ch "t" then Some 9
  else if c =? ch "v" then Some 11
  else if c =? ch "\" then Some 92
  else None.

Definition add_group (ngroups index : nat) (rest : outcome (list titem))
  : outcome (list titem) :=
  if (ngroups <? index)%nat then Raise re_error
  else obind rest (fun items => Ret (TGroup index :: items)).

Definition add_lit (c : N) (rest : outcome (list titem))
  : outcome (list titem) :=
  obind rest (fun items => Ret (TLit c :: items)).

(** [parse_template]: the replacement string read against a pattern with
    [ngroups] groups.  A backslash followed by digits is a group
    reference of up to two digits, or an octal escape when three octal
    digits follow; [\g<...>] is outside the fragment. *)
Fixpoint parse_template (ngroups : nat) (t : pystr)
  : outcome (list titem) :=
  match t with
  | [] => Ret []
  | c :: t1 =>
    if negb (c =? ch "\") then add_lit c (parse_template ngroups t1)
    else
      match t1 with
      | [] => Raise re_error
      | e :: t2 =>
        if e =? ch "g" then Beyond
        else if e =? ch "0" then
          match t2 with
          | d1 :: t3 =>
            if is_octal d1 then
              match t3 with
              | d2 :: t4 =>
                if is_octal d2 then
                  add_lit (N.of_nat (digit_val d1 * 8 + digit_val d2)
                           mod 256)
                          (parse_template ngroups t4)
                else add_lit (N.of_nat (digit_val d1))
                             (parse_template ngroups t3)
              | [] => add_lit (N.of_nat (digit_val d1))
                              (parse_template ngroups t3)
              end
            else add_lit 0 (parse_template ngroups t2)
          | [] => add_lit 0 (parse_template ngroups t2)
          end
        else if is_digit e then
          match t2 with
          | d1 :: t3 =>
            if is_digit d1 then
              match t3 with
              | d2 :: t4 =>
                if is_octal e && is_octal d1 && is_octal d2 then
                  let v := (digit_val e * 64 + digit_val d1 * 8
                            + digit_val d2)%nat in
                  if (255 <? v)%nat then Raise re_error
                  else add_lit (N.of_nat v) (parse_template ngroups t4)
                else add_group ngroups (digit_val e * 10 + digit_val d1)
                               (parse_template ngroups t3)
              | [] => add_group ngroups (digit_val e * 10 + digit_val d1)
                                (parse_template ngroups t3)
              end
            else add_group ngroups (digit_val e) (parse_template ngroups t2)
          | [] => add_group ngroups (digit_val e) (parse_template ngroups t2)
          end
        else
          match template_escape e with
          | Some v => add_lit v (parse_template ngroups t2)
          | None =>
            if is_ascii_letter e then Raise re_error
            else add_lit c (add_lit e (parse_template ngroups t2))
          end
      end
  end.

(** ** The [re] module: matching *)

(** Where a match attempt stands: the subject before the position
    (latest character first), the subject from the position on, and the
    text of the groups closed so far (latest first). *)
Record mstate := {
  consumed : pystr;
  remaining : pystr;
  captures : list (nat * pystr)
}.

Definition advance (st : mstate) (c : N) (t : pystr) : mstate :=
  {| consumed := c :: consumed st; remaining := t; captures := captures st |}.

(** The text between an earlier position [st] and [st']. *)
Definition span (st st' : mstate) : pystr :=
  rev (take (length (consumed st') - length (consumed st)) (consumed st')).

Definition capture (i : nat) (st st' : mstate) : mstate :=
  {| consumed := consumed st';
     remaining := remaining st';
     captures := (i, span st st') :: captures st' |}.

Fixpoint group_text (i : nat) (caps : list (nat * pystr)) : option pystr :=
  match caps with
  | [] => None
  | (j, s) :: caps' => if (i =? j)%nat then Some s else group_text i caps'
  end.

(** [match.expand]: a group that took no part in the match expands to
    the empty string. *)
Fixpoint expand (t : list titem) (st : mstate) : pystr :=
  match t with
  | [] => []
  | TLit c :: t' => c :: expand t' st
  | TGroup g :: t' => default [] (group_text g (captures st)) ++ expand t' st
  end.

(** The Unicode table cut down to Latin-1: exact below U+0100. *)
Definition latin1_isalnum (c : N) : bool :=
  (c =? 170) || (c =? 178) || (c =? 179) || (c =? 181) || (c =? 185)
  || (c =? 186) || (188 <=? c) && (c <=? 190)
  || (192 <=? c) && (c <=? 214) || (216 <=? c) && (c <=? 246)
  || (248 <=? c) && (c <=? 255).

Section Convert.

(** [str.isalnum] of a code point above U+007F, as the Unicode database
    of the interpreter has it. *)
Variable unicode_isalnum : N -> bool.

(** [\w] on [str] patterns: alphanumeric or underscore. *)
Definition is_word (c : N) : bool :=
  if c <? 128 then is_digit c || is_ascii_letter c || (c =? ch "_")
  else unicode_isalnum c.

Definition word_at (s : pystr) : bool :=
  match s with
  | c :: _ => is_word c
  | [] => false
  end.

(** [\b]: exactly one of the two neighbours is a word character. *)
Definition at_boundary (st : mstate) : bool :=
  xorb (word_at (consumed st)) (word_at (remaining st)).

Definition cont := mstate -> option mstate.

(** A greedy loop over a one-step matcher [m1]: one more round first,
    then the continuation.  A round must consume something; [fuel]
    bounds the rounds by the length of the subject left. *)
Fixpoint star_loop (m1 : mstate -> cont -> option mstate) (k : cont)
  (fuel : nat) (st : mstate) : option mstate :=
  match fuel with
  | O => k st
  | S fuel' =>
    match m1 st (fun st' =>
                   if (length (remaining st') <? length (remaining st))%nat
                   then star_loop m1 k fuel' st' else None)
    with
    | Some res => Some res
    | None => k st
    end
  end.

Fixpoint count_loop (m1 : mstate -> cont -> option mstate) (k : cont)
  (n : nat) (st : mstate) : option mstate :=
  match n with
  | O => k st
  | S n' => m1 st (count_loop m1 k n')
  end.

(** The backtracking matcher: [rmatch r st k] tries the ways [r] can
    match at [st], in the engine's order of preference, and gives the
    first one the continuation [k] accepts. *)
Fixpoint rmatch (r : regex) (st : mstate) (k : cont) {struct r}
  : option mstate :=
  match r with
  | Eps => k st
  | Lit c =>
    match remaining st with
    | c' :: t => if c =? c' then k (advance st c' t) else None
    | [] => None
    end
  | WordChar =>
    match remaining st with
    | c' :: t => if is_word c' then k (advance st c' t) else None
    | [] => None
    end
  | OneOf cs =>
    match remaining st with
    | c' :: t => if existsb (N.eqb c') cs then k (advance st c' t) else None
    | [] => None
    end
  | Boundary => if at_boundary st then k st else None
  | Seq r1 r2 => rmatch r1 st (fun st' => rmatch r2 st' k)
  | Alt r1 r2 =>
    match rmatch r1 st k with
    | Some res => Some res
    | None => rmatch r2 st k
    end
  | Star r1 => star_loop (rmatch r1) k (S (length (remaining st))) st
  | Count n r1 => count_loop (rmatch r1) k n st
  | Group i r1 => rmatch r1 st (fun st' => k (capture i st st'))
  end.

(** What the matcher explores, as a relation: [matches r st st'] when
    [r] can take the attempt from [st] to [st']. *)
Inductive matches : regex -> mstate -> mstate -> Prop :=
| matches_eps st : matches Eps st st
| matches_lit c t st :
    remaining st = c :: t -> matches (Lit c) st (advance st c t)
| matches_word c t st :
    remaining st = c :: t -> is_word c = true ->
    matches WordChar st (advance st c t)
| matches_oneof cs c t st :
    remaining st = c :: t -> existsb (N.eqb c) cs = true ->
    matches (OneOf cs) st (advance st c t)
| matches_boundary st :
    at_boundary st = true -> matches Boundary st st
| matches_seq r1 r2 st st1 st2 :
    matches r1 st st1 -> matches r2 st1 st2 -> matches (Seq r1 r2) st st2
| matches_alt_l r1 r2 st st1 :
    matches r1 st st1 -> matches (Alt r1 r2) st st1
| matches_alt_r r1 r2 st st2 :
    matches r2 st st2 -> matches (Alt r1 r2) st st2
| matches_star_stop r st : matches (Star r) st st
| matches_star_step r st st1 st2 :
    matches r st st1 -> matches (Star r) st1 st2 ->
    matches (Star r) st st2
| matches_count_0 r st : matches (Count 0 r) st st
| matches_count_S n r st st1 st2 :
    matches r st st1 -> matches (Count n r) st1 st2 ->
    matches (Count (S n) r) st st2
| matches_group i r st st1 :
    matches r st st1 -> matches (Group i r) st (capture i st st1).

(** One attempt at one position; [must_advance] refuses an empty
    match. *)
Definition match_here (p : pattern) (must_advance : bool)
  (before after : pystr) : option mstate :=
  rmatch (rx p)
    {| consumed := before; remaining := after; captures := [] |}
    (fun st' =>
       if must_advance && (length (remaining st') =? length after)%nat
       then None else Some st').

(** [pattern.search]: the leftmost position with a match. *)
Fixpoint search_from (p : pattern) (before after : pystr) : option mstate :=
  match match_here p false before after with
  | Some st => Some st
  | None =>
    match after with
    | [] => None
    | c :: t => search_from p (c :: before) t
    end
  end.

Definition re_search (p : pattern) (s : pystr) : bool :=
  bool_decide (is_Some (search_from p [] s)).

(** The scan of [pattern.sub]: leftmost matches, not overlapping, each
    replaced by the expanded template.  [skip] counts the characters of
    the last match still to pass; an empty match is followed by one more
    attempt at the same position, which must advance. *)
Fixpoint sub_from (p : pattern) (t : list titem) (skip : nat)
  (before after : pystr) {struct after} : pystr :=
  let next (skip' : nat) (emit : bool) : pystr :=
    match after with
    | [] => []
    | c :: rest =>
      (if emit then [c] else []) ++ sub_from p t skip' (c :: before) rest
    end in
  match skip with
  | S n => next n false
  | O =>
    match match_here p false before after with
    | None => next O true
    | Some st =>
      expand t st ++
      match (length after - length (remaining st))%nat with
      | S n => next n false
      | O =>
        match match_here p true before after with
        | None => next O true
        | Some st2 =>
          expand t st2 ++
          next (length after - length (remaining st2) - 1)%nat false
        end
      end
    end
  end.

(** [pattern.sub(repl, string)]. *)
Definition re_sub (p : pattern) (repl : pystr) (s : pystr) : outcome pystr :=
  obind (parse_template (groups p) repl)
        (fun t => Ret (sub_from p t 0 [] s)).

(** ** [pathlib] on a POSIX system *)

(** A path object: its root (empty, [/] or [//]) and its components. *)
Record PurePath := { root : pystr; parts : list pystr }.

Fixpoint leading_slashes (s : pystr) : nat :=
  match s with
  | c :: t => if c =? ch "/" then S (leading_slashes t) else O
  | [] => O
  end.

Definition is_component (x : pystr) : bool :=
  negb (bool_decide (x = [])) && negb (bool_decide (x = py ".")).

(** [pathlib.Path(s)]: empty and [.] components are dropped. *)
Definition Path (s : pystr) : PurePath :=
  {| root := match leading_slashes s with
             | O => []
             | 2%nat => py "//"
             | _ => py "/"
             end;
     parts := filter is_component (str_split (ch "/") s) |}.

(** [str(path)]. *)
Definition path_str (p : PurePath) : pystr :=
  match root p ++ str_join (ch "/") (parts p) with
  | [] => py "."
  | s => s
  end.

(** [path.name]: the last component, if any. *)
Definition path_name (p : PurePath) : pystr := List.last (parts p) [].

(** [name.rfind(".")]. *)
Fixpoint rfind_dot (s : pystr) : option nat :=
  match s with
  | [] => None
  | c :: t =>
    match rfind_dot t with
    | Some i => Some (S i)
    | None => if c =? ch "." then Some O else None
    end
  end.

(** [path.suffix]: from the last dot of the name on, when that dot is
    neither its first nor its last character. *)
Definition suffix (p : PurePath) : pystr :=
  let name := path_name p in
  match rfind_dot name with
  | Some i =>
    if (0 <? i)%nat && (i <? length name - 1)%nat then drop i name else []
  | None => []
  end.

(** ** Values read by [json.load] *)

#[warnings="-register-all"] Inductive json :=
| JNull
| JBool (b : bool)
| JNumber (literal : pystr)
| JString (s : pystr)
| JArray (elements : list json)
| JObject (members : list (pystr * json)).

(** The value of a key in a [dict] built from the members of a JSON
    object in document order: the last member of that name wins. *)
Fixpoint dict_get (members : list (pystr * json)) (key : pystr)
  : option json :=
  match members with
  | [] => None
  | (k, v) :: rest =>
    match dict_get rest key with
    | Some v' => Some v'
    | None => if bool_decide (k = key) then Some v else None
    end
  end.

(** [s[key]] with a string key. *)
Definition getitem (s : json) (key : pystr) : outcome json :=
  match s with
  | JObject members =>
    match dict_get members key with
    | Some v => Ret v
    | None => Raise (KeyError key)
    end
  | _ => Raise TypeError
  end.

(** The elements a [for] loop over a loaded value visits: those of a
    list, the keys of a dict, the characters of a string. *)
Definition py_iter (v : json) : outcome (list json) :=
  match v with
  | JArray elements => Ret elements
  | JObject members =>
    Ret (JString <$> rev (remove_dups (rev (members.*1))))
  | JString s => Ret ((fun c => JString [c]) <$> s)
  | _ => Raise TypeError
  end.

(** [f"{v}"] for the values a substitution can hold; numbers and
    containers are outside the fragment. *)
Definition format_value (v : json) : outcome pystr :=
  match v with
  | JString s => Ret s
  | JNull => Ret (py "None")
  | JBool true => Ret (py "True")
  | JBool false => Ret (py "False")
  | _ => Beyond
  end.

(** ** The world of the script *)

(** Files and directories are keyed by [str(path)].  A directory holds
    what [glob("**/*.keymap")] yields for it, in the order of the
    walk. *)
Record world := {
  files : gmap pystr pybytes;
  dirs : gmap pystr (list pystr);
  stdout : list pystr;
  written : list (pystr * pybytes)
}.

Definition M (A : Type) : Type := world -> world * outcome A.

Definition ret {A} (a : A) : M A := fun w => (w, Ret a).

Definition bind {A B} (m : M A) (f : A -> M B) : M B :=
  fun w =>
    match m w with
    | (w', Ret a) => f a w'
    | (w', Raise e) => (w', Raise e)
    | (w', Beyond) => (w', Beyond)
    end.

Definition lift {A} (o : outcome A) : M A := fun w => (w, o).

Notation "'let*' x ':=' m 'in' k" := (bind m (fun x => k))
  (at level 10, x pattern, m at level 100, k at level 200).

Definition print (line : pystr) : M unit :=
  fun w =>
    ({| files := files w; dirs := dirs w;
        stdout := stdout w ++ [line]; written := written w |}, Ret tt).

Definition is_file (p : PurePath) : M bool :=
  fun w => (w, Ret (bool_decide (is_Some (files w !! path_str p)))).

Definition is_dir (p : PurePath) : M bool :=
  fun w => (w, Ret (bool_decide (is_Some (dirs w !! path_str p)))).

Definition read_bytes (p : PurePath) : M pybytes :=
  fun w =>
    (w, match files w !! path_str p with
        | Some content => Ret content
        | None => Raise OSError
        end).

Definition write_bytes (p : PurePath) (content : pybytes) : M unit :=
  fun w =>
    ({| files := <[path_str p := content]> (files w); dirs := dirs w;
        stdout := stdout w;
        written := written w ++ [(path_str p, content)] |}, Ret tt).

Definition glob_keymap (p : PurePath) : M (list PurePath) :=
  fun w => (w, Ret (Path <$> default [] (dirs w !! path_str p))).

(** ** The script *)

(** The parsed command line, [ARGS]. *)
Record args := {
  keymap_path : pystr;
  substitution_file : pystr;
  dry_run : bool
}.

(** The text of the pattern built for one old keycode. *)
Definition old_keycode_pattern (old_keycode : pystr) : pystr :=
  py "(&(inc_dec_[kc]p|\w{2}) \w*)\b" ++ old_keycode ++ py "\b".

(** The replacement: the first group, then the new keycode. *)
Definition replacement_keycode (new_keycode : pystr) : pystr :=
  py "\1" ++ new_keycode.

Definition compile (p : pystr) : outcome pattern :=
  match re_compile p with
  | Some pat => Ret pat
  | None => Beyond
  end.

(** [enumerate(lines)] from a first index on. *)
Fixpoint enumerate {A} (i : nat) (l : list A) : list (nat * A) :=
  match l with
  | [] => []
  | x :: l' => (i, x) :: enumerate (S i) l'
  end.

Definition no_replacement_message (path old : pystr) : pystr :=
  path ++ py " contains " ++ old
       ++ py ", which currently has no replacement!".

Definition would_replace_message (old new : pystr) (n : nat) : pystr :=
  py "Would have replaced " ++ old ++ py " with " ++ new ++ py " on "
     ++ py (pretty n) ++ py " lines.".

(** What [open(path)] followed by [json.load] makes of a file's
    bytes. *)
Variable json_load : pybytes -> outcome json.

Variable ARGS : args.

(** The indices of the lines the pattern is found in. *)
Definition lines_to_update (old_keycode_regex : pattern)
  (keymap_file : list pystr) : list nat :=
  (filter (fun il => re_search old_keycode_regex il.2)
          (enumerate 0 keymap_file)).*1.

(** The inner loop: every listed line is replaced by its [sub]. *)
Fixpoint update_lines (old_keycode_regex : pattern)
  (replacement : pystr) (indices : list nat) (keymap_file : list pystr)
  : outcome (list pystr) :=
  match indices with
  | [] => Ret keymap_file
  | line :: indices' =>
    match keymap_file !! line with
    | Some text =>
      obind (re_sub old_keycode_regex replacement text)
            (fun text' =>
               update_lines old_keycode_regex replacement indices'
                            (<[line := text']> keymap_file))
    | None => Raise IndexError
    end
  end.

(** The loop over the substitutions, on the lines in memory. *)
Fixpoint substitute (keymap_file_path : PurePath)
  (substitutions : list (json * json)) (keymap_file : list pystr)
  : M (list pystr) :=
  match substitutions with
  | [] => ret keymap_file
  | (old_keycode, new_keycode) :: rest =>
    let* old := lift (format_value old_keycode) in
    let* old_keycode_regex := lift (compile (old_keycode_pattern old)) in
    let to_update := lines_to_update old_keycode_regex keymap_file in
    match to_update with
    | [] => substitute keymap_file_path rest keymap_file
    | _ :: _ =>
      match new_keycode with
      | JNull =>
        let* _ := print (no_replacement_message
                           (path_str keymap_file_path) old) in
        substitute keymap_file_path rest keymap_file
      | _ =>
        let* new := lift (format_value new_keycode) in
        if dry_run ARGS then
          let* _ := print (would_replace_message old new
                             (length to_update)) in
          substitute keymap_file_path rest keymap_file
        else
          let* keymap_file' :=
            lift (update_lines old_keycode_regex
                               (replacement_keycode new)
                               to_update keymap_file) in
          substitute keymap_file_path rest keymap_file'
      end
    end
  end.

Definition decode (content : pybytes) : outcome pystr :=
  match utf8_decode content with
  | Some s => Ret s
  | None => Raise UnicodeDecodeError
  end.

Definition encode (s : pystr) : outcome pybytes :=
  match utf8_encode s with
  | Some content => Ret content
  | None => Raise UnicodeEncodeError
  end.

(** [format_file]: read and decode, substitute, encode and write
    back. *)
Definition format_file (keymap_file_path : PurePath)
  (substitutions : list (json * json)) : M unit :=
  let* keymap_file_bytes := read_bytes keymap_file_path in
  let* text := lift (decode keymap_file_bytes) in
  let keymap_file := str_split newline text in
  let* keymap_file := substitute keymap_file_path substitutions
                                 keymap_file in
  let new_keymap_file := str_join newline keymap_file in
  let* new_keymap_file_bytes := lift (encode new_keymap_file) in
  write_bytes keymap_file_path new_keymap_file_bytes.

(** The comprehension of [load_substitutions]. *)
Fixpoint pairs_of (elements : list json) : outcome (list (json * json)) :=
  match elements with
  | [] => Ret []
  | s :: rest =>
    obind (getitem s (py "from")) (fun from =>
    obind (getitem s (py "to")) (fun to =>
    obind (pairs_of rest) (fun tail => Ret ((from, to) :: tail))))
  end.

Definition substitutions_of (substitution_json : json)
  : outcome (list (json * json)) :=
  obind (py_iter substitution_json) pairs_of.

Definition load_substitutions (substitution_file_path : pystr)
  : M (list (json * json)) :=
  let* content := read_bytes (Path substitution_file_path) in
  let* substitution_json := lift (json_load content) in
  lift (substitutions_of substitution_json).

(** The loop of [main] over the files of a directory. *)
Fixpoint format_all (found : list PurePath)
  (substitutions : list (json * json)) : M unit :=
  match found with
  | [] => ret tt
  | keymap_file :: rest =>
    let* _ := print (py "Sorting out " ++ path_str keymap_file
                        ++ py "....") in
    let* _ := format_file keymap_file substitutions in
    format_all rest substitutions
  end.

Definition main : M unit :=
  let json_file_path := Path (substitution_file ARGS) in
  let* exists_ := is_file json_file_path in
  if negb exists_ then
    print (substitution_file ARGS
             ++ py " doesn't point to a file! Aborting...")
  else if negb (bool_decide (suffix json_file_path = py ".json")) then
    print (substitution_file ARGS
             ++ py " doesn't point to a JSON file! Aborting...")
  else
    let* substitutions := load_substitutions (substitution_file ARGS) in
    let keymap_file_path := Path (keymap_path ARGS) in
    let* directory := is_dir keymap_file_path in
    if directory then
      let* found := glob_keymap keymap_file_path in
      format_all found substitutions
    else
      let* regular := is_file keymap_file_path in
      if regular && bool_decide (suffix keymap_file_path = py ".keymap")
      then format_file keymap_file_path substitutions
      else
        print (keymap_path ARGS
                 ++ py " doesn't point to a folder or a keymap file!"
                 ++ py " Aborting...").


(** ** The pattern of the script, as compiled *)

(** The second group: [inc_dec_kp], [inc_dec_cp] or two word
    characters. *)
Definition binding_name_regex : regex :=
  Alt (mk_seq ((Lit <$> py "inc_dec_") ++ [OneOf (py "kc"); Lit (ch "p")]))
      (mk_seq [Count 2 WordChar]).

(** The first group: the mark, the binding name, a space and a run of
    word characters. *)
Definition anchor_regex : regex :=
  Group 1 (mk_seq [Lit (ch "&"); Group 2 binding_name_regex;
                   Lit (ch " "); Star WordChar]).

(** What follows the anchor: a boundary, the old keycode, a boundary. *)
Definition keycode_tail (old : pystr) : regex :=
  mk_seq (Boundary :: (Lit <$> old) ++ [Boundary]).

Definition keycode_regex (old : pystr) : pattern :=
  {| rx := Seq anchor_regex (keycode_tail old); groups := 2 |}.

(** The template [\1] followed by plain text. *)
Definition replacement_items (new : pystr) : list titem :=
  TGroup 1 :: (TLit <$> new).

(** ** Keycodes *)

(** No character of the keycode is special in a pattern. *)
Definition literal (s : pystr) : bool :=
  forallb (fun c => negb (is_meta c)) s.

(** A keycode that is one word: not empty, word characters only. *)
Definition word_token (s : pystr) : bool :=
  match s with
  | [] => false
  | _ => forallb is_word s
  end.

(** A new keycode that a template takes as it is: no backslash, and no
    digit right after the [\1]. *)
Definition template_safe (new : pystr) : bool :=
  forallb (fun c => negb (c =? ch "\")) new
  && match new with
     | c :: _ => negb (is_digit c)
     | [] => true
     end.

(** The binding names the anchor accepts. *)
Definition is_binding_name (name : pystr) : bool :=
  bool_decide (name = py "inc_dec_kp") || bool_decide (name = py "inc_dec_cp")
  || (length name =? 2)%nat && forallb is_word name.

(** [st'] lies the text [w] further on in the subject than [st], with the
    same groups. *)
Definition steps (w : pystr) (st st' : mstate) : Prop :=
  remaining st = w ++ remaining st' /\
  consumed st' = rev w ++ consumed st /\
  captures st' = captures st.


(** ** The substitution table, as the specification has it *)

(** An old keycode and, when there is one, its replacement. *)
Definition substitution := (pystr * option pystr)%type.

(** The pair of loaded values for a substitution. *)
Definition to_json (s : substitution) : json * json :=
  (JString s.1,
   match s.2 with
   | Some new => JString new
   | None => JNull
   end).

Definition plain (s : substitution) : bool :=
  literal s.1
  && match s.2 with
     | Some new => template_safe new
     | None => true
     end.

(** The number of lines the old keycode is found in. *)
Definition hits (old : pystr) (lines : list pystr) : nat :=
  length (List.filter (re_search (keycode_regex old)) lines).

(** One substitution on one line. *)
Definition line_pass (old new : pystr) (line : pystr) : pystr :=
  if re_search (keycode_regex old) line
  then sub_from (keycode_regex old) (replacement_items new) 0 [] line
  else line.

(** One substitution as a pass over all the lines. *)
Definition pass (s : substitution) (lines : list pystr) : list pystr :=
  match s.2 with
  | Some new => line_pass s.1 new <$> lines
  | None => lines
  end.

(** The passes of a table, from left to right. *)
Definition passes (table : list substitution) (lines : list pystr)
  : list pystr :=
  fold_left (fun ls s => pass s ls) table lines.

(** What a run that writes prints for a file: a line for every keycode
    without a replacement that is found when its turn comes. *)
Fixpoint run_report (path : pystr) (table : list substitution)
  (lines : list pystr) : list pystr :=
  match table with
  | [] => []
  | s :: rest =>
    match s.2, hits s.1 lines with
    | None, S _ => [no_replacement_message path s.1]
    | _, _ => []
    end ++ run_report path rest (pass s lines)
  end.

(** What a dry run prints for a file: a line for every keycode that is
    found, with the number of lines when it has a replacement. *)
Fixpoint dry_report (path : pystr) (table : list substitution)
  (lines : list pystr) : list pystr :=
  match table with
  | [] => []
  | s :: rest =>
    match hits s.1 lines, s.2 with
    | O, _ => []
    | S _, None => [no_replacement_message path s.1]
    | S n, Some new => [would_replace_message s.1 new (S n)]
    end ++ dry_report path rest lines
  end.

(** The number of lines a pattern is found in. *)
Definition found (pat : pattern) (lines : list pystr) : nat :=
  length (List.filter (re_search pat) lines).

(** What a dry run prints for a file and a table of loaded values,
    whatever the old keycodes read as in a pattern: nothing for a pair
    whose pattern is found in no line, the missing replacement for a
    pair that is found and has none, the number of lines for a pair
    that is found and has one. *)
Inductive dry_reported (path : pystr) (lines : list pystr)
  : list (json * json) -> list pystr -> Prop :=
| dry_reported_nil : dry_reported path lines [] []
| dry_reported_absent old_keycode new_keycode old pat rest out :
    format_value old_keycode = Ret old ->
    re_compile (old_keycode_pattern old) = Some pat ->
    found pat lines = 0%nat ->
    dry_reported path lines rest out ->
    dry_reported path lines ((old_keycode, new_keycode) :: rest) out
| dry_reported_no_replacement old_keycode old pat rest out :
    format_value old_keycode = Ret old ->
    re_compile (old_keycode_pattern old) = Some pat ->
    found pat lines <> 0%nat ->
    dry_reported path lines rest out ->
    dry_reported path lines ((old_keycode, JNull) :: rest)
                 (no_replacement_message path old :: out)
| dry_reported_would_replace old_keycode new_keycode old new pat rest out :
    format_value old_keycode = Ret old ->
    re_compile (old_keycode_pattern old) = Some pat ->
    found pat lines <> 0%nat ->
    new_keycode <> JNull ->
    format_value new_keycode = Ret new ->
    dry_reported path lines rest out ->
    dry_reported path lines ((old_keycode, new_keycode) :: rest)
                 (would_replace_message old new (found pat lines) :: out).

(** The world after printing [out]. *)
Definition emit (out : list pystr) (w : world) : world :=
  {| files := files w; dirs := dirs w;
     stdout := stdout w ++ out; written := written w |}.

(** The world after printing [out] and writing [content] to [p]. *)
Definition written_back (p : PurePath) (content : pybytes)
  (out : list pystr) (w : world) : world :=
  {| files := <[path_str p := content]> (files w); dirs := dirs w;
     stdout := stdout w ++ out;
     written := written w ++ [(path_str p, content)] |}.

(** ** What a run may touch *)

(** From [w] to [w'] no directory has changed, no file outside
    [targets] has changed, and every write made in between went to one
    of [targets]. *)
Definition touches_only (targets : list pystr) (w w' : world) : Prop :=
  dirs w' = dirs w /\
  (forall q, q ∉ targets -> files w' !! q = files w !! q) /\
  exists more,
    written w' = written w ++ more /\
    Forall (fun e : pystr * pybytes => e.1 ∈ targets) more.

(** The paths [main] hands to [format_file]: what the glob yields for a
    directory, the path itself otherwise. *)
Definition keymap_targets (w : world) : list pystr :=
  match dirs w !! path_str (Path (keymap_path ARGS)) with
  | Some listing => (fun found => path_str (Path found)) <$> listing
  | None => [path_str (Path (keymap_path ARGS))]
  end.

(** The line [main] prints before a file of a directory. *)
Definition sorting_out_message (p : PurePath) : pystr :=
  py "Sorting out " ++ path_str p ++ py "....".

(** ** Elements of a substitution file *)

(** An element the comprehension of [load_substitutions] accepts: an
    object with a [from] and a [to] member. *)
Definition complete_element (element : json) : Prop :=
  exists members,
    element = JObject members /\
    is_Some (dict_get members (py "from")) /\
    is_Some (dict_get members (py "to")).

Definition is_object (v : json) : bool :=
  match v with
  | JObject _ => true
  | _ => false
  end.

(** A loaded value that is no array and that a [for] loop does not pass
    over in silence: a scalar, or a string or an object that is not
    empty. *)
Definition not_a_table (v : json) : bool :=
  match v with
  | JArray _ | JString [] | JObject [] => false
  | _ => true
  end.

(** ** The pattern as a scanner *)

(** The word characters a text begins with, and what follows them. *)
Fixpoint take_word (s : pystr) : pystr * pystr :=
  match s with
  | c :: t =>
    if is_word c then (c :: (take_word t).1, (take_word t).2) else ([], s)
  | [] => ([], [])
  end.

(** [binding_at old s]: the text [s] begins with the mark, a binding
    name, one space and [old] as a whole word; then the name and what
    follows [old]. *)
Definition binding_at (old s : pystr) : option (pystr * pystr) :=
  match s with
  | c :: t =>
    if c =? ch "&" then
      let name := (take_word t).1 in
      match (take_word t).2 with
      | sp :: r =>
        if is_binding_name name && (sp =? ch " ")
           && bool_decide (take (length old) r = old)
           && negb (word_at (drop (length old) r))
        then Some (name, drop (length old) r)
        else None
      | [] => None
      end
    else None
  | [] => None
  end.

(** Whether some position of the line has such a binding. *)
Fixpoint has_binding (old s : pystr) : bool :=
  match binding_at old s with
  | Some _ => true
  | None =>
    match s with
    | _ :: t => has_binding old t
    | [] => false
    end
  end.

(** The line with the keycode of every such binding swapped, from left
    to right; [skip] characters are passed first. *)
Fixpoint scan_line (old new : pystr) (skip : nat) (s : pystr) : pystr :=
  match s with
  | [] => []
  | c :: t =>
    match skip with
    | S n => scan_line old new n t
    | O =>
      match binding_at old s with
      | Some (name, _) =>
        ch "&" :: name ++ ch " " :: new
           ++ scan_line old new (length name + 1 + length old) t
      | None => c :: scan_line old new 0 t
      end
    end
  end.

(** ** Sample inputs *)

(** The bytes of an ASCII literal. *)
Definition ascii_bytes (s : string) : pybytes := String.list_byte_of_string s.

Definition run_args : args :=
  {| keymap_path := py "a.keymap";
     substitution_file := py "substitutions.json";
     dry_run := false |}.

Definition dry_args : args :=
  {| keymap_path := py "a.keymap";
     substitution_file := py "substitutions.json";
     dry_run := true |}.

Definition sample_path : PurePath := Path (py "a.keymap").

Definition one_file (content : pybytes) : world :=
  {| files := {[ py "a.keymap" := content ]};
     dirs := ∅; stdout := []; written := [] |}.

(** A keymap of four bindings, one to a line. *)
Definition keymap_content : pybytes :=
  ascii_bytes "&kp OLD" ++ [x0a] ++ ascii_bytes "&kp OLDX" ++ [x0a]
  ++ ascii_bytes "&inc_dec_kp OLD" ++ [x0a] ++ ascii_bytes "&mt MOD OLD".

Definition keymap_text : pystr :=
  py "&kp OLD" ++ [newline] ++ py "&kp OLDX" ++ [newline]
  ++ py "&inc_dec_kp OLD" ++ [newline] ++ py "&mt MOD OLD".

Definition keymap_content_after : pybytes :=
  ascii_bytes "&kp NEW" ++ [x0a] ++ ascii_bytes "&kp OLDX" ++ [x0a]
  ++ ascii_bytes "&inc_dec_kp NEW" ++ [x0a] ++ ascii_bytes "&mt MOD OLD".

(** A keymap with a comment in characters of two, three and four bytes
    (U+00E9, U+20AC, U+1F600). *)
Definition unicode_content : pybytes :=
  ascii_bytes "// " ++ [xc3; xa9; xe2; x82; xac; xf0; x9f; x98; x80; x0a]
  ++ ascii_bytes "&kp FOO".

Definition unicode_text : pystr :=
  py "// " ++ [233; 8364; 128512; newline] ++ py "&kp FOO".

(** The text of a JSON string. *)
Definition quoted (s : string) : pybytes := [x22] ++ ascii_bytes s ++ [x22].

(** A substitution file of one entry without [to]. *)
Definition no_to_content : pybytes :=
  ascii_bytes "[{" ++ quoted "from" ++ ascii_bytes ": " ++ quoted "A"
  ++ ascii_bytes "}]".

(** A substitution file of two entries, the second with a null [to]. *)
Definition table_content : pybytes :=
  ascii_bytes "[{" ++ quoted "from" ++ ascii_bytes ": " ++ quoted "OLD"
  ++ ascii_bytes ", " ++ quoted "to" ++ ascii_bytes ": " ++ quoted "NEW"
  ++ ascii_bytes "}, {" ++ quoted "from" ++ ascii_bytes ": " ++ quoted "GONE"
  ++ ascii_bytes ", " ++ quoted "to" ++ ascii_bytes ": null}]".

Definition same_bytes (a b : pybytes) : bool :=
  bool_decide (Byte.to_N <$> a = Byte.to_N <$> b).

(** A stand-in for [json.load] that reads these two files. *)
Definition sample_json_load (content : pybytes) : outcome json :=
  if same_bytes content no_to_content then
    Ret (JArray [JObject [(py "from", JString (py "A"))]])
  else if same_bytes content table_content then
    Ret (JArray [JObject [(py "from", JString (py "OLD"));
                          (py "to", JString (py "NEW"))];
                 JObject [(py "from", JString (py "GONE"));
                          (py "to", JNull)]])
  else Raise JSONDecodeError.

Definition substitution_file_world (content : pybytes) : world :=
  {| files := {[ py "substitutions.json" := content ]};
     dirs := ∅; stdout := []; written := [] |}.

(** A substitution file next to the sample keymap. *)
Definition project_world : world :=
  {| files := {[ py "substitutions.json" := table_content;
                 py "a.keymap" := keymap_content ]};
     dirs := ∅; stdout := []; written := [] |}.

(** The table of [table_content]. *)
Definition sample_table : list substitution :=
  [(py "OLD", Some (py "NEW")); (py "GONE", None)].

(** Two keymaps of a directory; a third name the glob may give is not
    there. *)
Definition walk_world : world :=
  {| files := {[ py "a.keymap" := keymap_content;
                 py "c.keymap" := unicode_content ]};
     dirs := ∅; stdout := []; written := [] |}.

(** Substitution files the loader does not take: an entry without
    [from], an entry that is a string, and an object at the top. *)
Definition no_from_content : pybytes :=
  ascii_bytes "[{" ++ quoted "to" ++ ascii_bytes ": " ++ quoted "B"
  ++ ascii_bytes "}]".

Definition string_element_content : pybytes :=
  ascii_bytes "[" ++ quoted "A" ++ ascii_bytes "]".

Definition object_content : pybytes :=
  ascii_bytes "{" ++ quoted "from" ++ ascii_bytes ": " ++ quoted "A"
  ++ ascii_bytes ", " ++ quoted "to" ++ ascii_bytes ": " ++ quoted "B"
  ++ ascii_bytes "}".

(** A stand-in for [json.load] that reads these files as well. *)
Definition malformed_json_load (content : pybytes) : outcome json :=
  if same_bytes content no_from_content then
    Ret (JArray [JObject [(py "to", JString (py "B"))]])
  else if same_bytes content string_element_content then
    Ret (JArray [JString (py "A")])
  else if same_bytes content object_content then
    Ret (JObject [(py "from", JString (py "A"));
                  (py "to", JString (py "B"))])
  else sample_json_load content.

(** The pattern an old keycode with a bar compiles to: the bar splits
    the whole pattern in two branches. *)
Definition either_pattern : pattern :=
  Eval vm_compute in
    default {| rx := Eps; groups := 0 |}
            (re_compile (old_keycode_pattern (py "OLD|MOD"))).

(** A table of loaded values: a literal keycode, one with a bar, one
    without a replacement and one that is not in the sample keymap. *)
Definition mixed_table : list (json * json) :=
  [(JString (py "OLD"), JString (py "NEW"));
   (JString (py "OLD|MOD"), JString (py "NEW"));
   (JString (py "MOD"), JNull);
   (JString (py "GONE"), JNumber (py "7"))].

(** * Properties *)

(** Linear arithmetic with division and remainder by constants. *)
Ltac div_lia := zify; Z.to_euclidean_division_equations; lia.

Ltac split_bool :=
  repeat match goal with
         | H : _ && _ = true |- _ => apply andb_prop in H; destruct H
         | H : negb _ = true |- _ => apply negb_true_iff in H
         | H : (_ <=? _) = true |- _ => apply N.leb_le in H
         | H : (_ <=? _) = false |- _ => apply N.leb_gt in H
         | H : (_ <? _) = true |- _ => apply N.ltb_lt in H
         | H : (_ <? _) = false |- _ => apply N.ltb_ge in H
         | H : (_ =? _) = true |- _ => apply N.eqb_eq in H
         | H : (_ =? _) = false |- _ => apply N.eqb_neq in H
         end.

(** Lists of appended and reversed pieces, brought to one shape. *)
Ltac list_norm :=
  repeat (progress (simpl; rewrite ?rev_app_distr, <- ?app_assoc)).

(** The literals of the source, evaluated. *)
Ltac eval_py :=
  repeat match goal with
         | |- context [py ?s] =>
           let v := eval vm_compute in (py s) in change (py s) with v
         | |- context [ch ?s] =>
           let v := eval vm_compute in (ch s) in change (ch s) with v
         | H : context [py ?s] |- _ =>
           let v := eval vm_compute in (py s) in change (py s) with v in H
         | H : context [ch ?s] |- _ =>
           let v := eval vm_compute in (ch s) in change (ch s) with v in H
         end.

(** ** Decoding and encoding *)

Lemma byte_of_to_N b : byte_of_N (Byte.to_N b) = b.
Proof. unfold byte_of_N. now rewrite Byte.of_to_N. Qed.

Lemma byte_of_N_eq n b : n = Byte.to_N b -> byte_of_N n = b.
Proof. intros ->. apply byte_of_to_N. Qed.

Lemma continuation_Some b c :
  continuation b = Some c -> Byte.to_N b = c + 128 /\ c < 64.
Proof.
  unfold continuation.
  destruct (N.leb_spec 128 (Byte.to_N b)), (N.ltb_spec (Byte.to_N b) 192);
    simpl; intros [= <-]; lia.
Qed.

Lemma fmap_cons_Some (c : N) (o : option pystr) s :
  cons c <$> o = Some s -> exists s', o = Some s' /\ s = c :: s'.
Proof. destruct o; simpl; intros [= <-]; eauto. Qed.

Lemma utf8_roundtrip_bounded n :
  forall bs s, (length bs <= n)%nat ->
    utf8_decode bs = Some s -> utf8_encode s = Some bs.
Proof.
  clear unicode_isalnum json_load.
  induction n as [|n IH]; intros bs s Hlen Hdec.
  { destruct bs; simpl in Hlen, Hdec |- *; [|lia]. now injection Hdec as <-. }
  destruct bs as [|b1 t1]; simpl in Hdec.
  { now injection Hdec as <-. }
  pose proof (Byte.to_N_bounded b1) as Hb1.
  simpl in Hlen.
  destruct (Byte.to_N b1 <? 128) eqn:E1.
  { apply fmap_cons_Some in Hdec as (s' & Hs' & ->).
    simpl. unfold utf8_encode_char. rewrite E1.
    rewrite (IH t1 s') by (auto; lia). now rewrite byte_of_to_N. }
  destruct (Byte.to_N b1 <? 192) eqn:E2; [discriminate|].
  destruct (Byte.to_N b1 <? 224) eqn:E3.
  { destruct t1 as [|b2 t2]; [discriminate|].
    destruct (continuation b2) as [c2|] eqn:C2; [|discriminate].
    apply continuation_Some in C2 as [C2 B2].
    destruct (128 <=? _) eqn:R in Hdec; [|discriminate].
    apply fmap_cons_Some in Hdec as (s' & Hs' & ->).
    simpl in Hlen. split_bool.
    simpl. rewrite (IH t2 s') by (auto; lia).
    unfold utf8_encode_char.
    destruct (N.ltb_spec ((Byte.to_N b1 - 192) * 64 + c2) 128); [lia|].
    destruct (N.ltb_spec ((Byte.to_N b1 - 192) * 64 + c2) 2048); [|lia].
    simpl. f_equal. f_equal; [|f_equal]; apply byte_of_N_eq; div_lia. }
  destruct (Byte.to_N b1 <? 240) eqn:E4.
  { destruct t1 as [|b2 [|b3 t3]]; try discriminate.
    destruct (continuation b2) as [c2|] eqn:C2; [|discriminate].
    destruct (continuation b3) as [c3|] eqn:C3; [|discriminate].
    apply continuation_Some in C2 as [C2 B2].
    apply continuation_Some in C3 as [C3 B3].
    destruct (_ && _) eqn:R in Hdec; [|discriminate].
    apply fmap_cons_Some in Hdec as (s' & Hs' & ->).
    simpl in Hlen. split_bool.
    simpl. rewrite (IH t3 s') by (auto; lia).
    unfold utf8_encode_char.
    match goal with H : (55296 <=? ?cp) && _ = false |- _ =>
      destruct (N.ltb_spec cp 128); [lia|];
      destruct (N.ltb_spec cp 2048); [lia|];
      destruct (N.ltb_spec cp 65536); [|lia];
      rewrite H
    end.
    simpl. f_equal.
    f_equal; [|f_equal; [|f_equal]]; apply byte_of_N_eq; div_lia. }
  destruct (Byte.to_N b1 <? 248) eqn:E5; [|discriminate].
  destruct t1 as [|b2 [|b3 [|b4 t4]]]; try discriminate.
  destruct (continuation b2) as [c2|] eqn:C2; [|discriminate].
  destruct (continuation b3) as [c3|] eqn:C3; [|discriminate].
  destruct (continuation b4) as [c4|] eqn:C4; [|discriminate].
  apply continuation_Some in C2 as [C2 B2].
  apply continuation_Some in C3 as [C3 B3].
  apply continuation_Some in C4 as [C4 B4].
  destruct (_ && _) eqn:R in Hdec; [|discriminate].
  apply fmap_cons_Some in Hdec as (s' & Hs' & ->).
  simpl in Hlen. split_bool.
  simpl. rewrite (IH t4 s') by (auto; lia).
  unfold utf8_encode_char.
  match goal with H : ?cp <= 1114111 |- _ =>
    destruct (N.ltb_spec cp 128); [lia|];
    destruct (N.ltb_spec cp 2048); [lia|];
    destruct (N.ltb_spec cp 65536); [lia|];
    destruct (N.leb_spec cp 1114111); [|lia]
  end.
  simpl. f_equal.
  f_equal; [|f_equal; [|f_equal; [|f_equal]]]; apply byte_of_N_eq; div_lia.
Qed.

(** Encoding undoes strict decoding. *)
Lemma utf8_roundtrip bs s :
  utf8_decode bs = Some s -> utf8_encode s = Some bs.
Proof. apply (utf8_roundtrip_bounded (length bs)). lia. Qed.

(** Joining undoes splitting. *)
Lemma str_join_split sep s : str_join sep (str_split sep s) = s.
Proof.
  induction s as [|c t IH]; [reflexivity|].
  simpl. destruct (N.eqb_spec c sep) as [->|Hne].
  - simpl. destruct (str_split sep t) eqn:E.
    + destruct t; simpl in E; [discriminate|].
      destruct (_ =? _); [discriminate|]. destruct (str_split sep t); discriminate.
    + now rewrite <- IH.
  - destruct (str_split sep t) as [|l ls] eqn:E.
    + destruct t; simpl in E; [discriminate|].
      destruct (_ =? _); [discriminate|]. destruct (str_split sep t); discriminate.
    + simpl in IH |- *. destruct ls; now rewrite <- IH.
Qed.

(** ** Compiling the pattern and the template *)

Lemma parse_loop_app p q st :
  parse_loop (p ++ q) st =
  match parse_loop p st with
  | Some st' => parse_loop q st'
  | None => None
  end.
Proof.
  revert st. induction p as [|c p IH]; intros st; simpl; [reflexivity|].
  destruct (pstep c st); [apply IH | reflexivity].
Qed.

Lemma parse_loop_literal s st :
  literal s = true -> mode st = Normal ->
  parse_loop s st =
  Some {| mode := Normal;
          cur := {| branches := branches (cur st);
                    items := rev (Lit <$> s) ++ items (cur st);
                    gindex := gindex (cur st) |};
          outer := outer st;
          opened := opened st |}.
Proof.
  revert st. induction s as [|c s IH]; intros st Hs Hm.
  - simpl. destruct st as [m [] ? ?]. simpl in Hm |- *. now subst.
  - simpl in Hs. apply andb_prop in Hs as [Hc Hs].
    simpl. unfold pstep. rewrite Hm, Hc.
    rewrite IH by auto. simpl. now rewrite <- app_assoc.
Qed.

Lemma compile_keycode old :
  literal old = true ->
  re_compile (old_keycode_pattern old) = Some (keycode_regex old).
Proof.
  intros Hold. unfold re_compile, old_keycode_pattern.
  rewrite parse_loop_app.
  match goal with |- context [parse_loop (py ?s) parse_start] =>
    let v := eval vm_compute in (parse_loop (py s) parse_start) in
    change (parse_loop (py s) parse_start) with v
  end.
  cbv beta iota.
  rewrite parse_loop_app, parse_loop_literal by auto.
  cbn. unfold keycode_regex. f_equal. f_equal.
  unfold close_frame. cbn.
  rewrite !rev_app_distr, rev_involutive. reflexivity.
Qed.

Lemma parse_template_plain n s :
  forallb (fun c => negb (c =? ch "\")) s = true ->
  parse_template n s = Ret (TLit <$> s).
Proof.
  induction s as [|c s IH]; intros H; [reflexivity|].
  simpl in H. apply andb_prop in H as [Hc Hs].
  cbn [parse_template]. rewrite Hc, (IH Hs). reflexivity.
Qed.

Lemma parse_replacement new :
  template_safe new = true ->
  parse_template 2 (replacement_keycode new) = Ret (TGroup 1 :: (TLit <$> new)).
Proof.
  unfold template_safe. intros H. apply andb_prop in H as [Hb Hd].
  unfold replacement_keycode. cbn.
  destruct new as [|d1 t3]; [reflexivity|].
  apply negb_true_iff in Hd. rewrite Hd.
  rewrite (parse_template_plain 2 (d1 :: t3) Hb). reflexivity.
Qed.


(** ** The matcher *)

Lemma star_loop_sound r1 (k : cont) :
  (forall st k res, rmatch r1 st k = Some res ->
     exists st', matches r1 st st' /\ k st' = Some res) ->
  forall fuel st res,
    star_loop (rmatch r1) k fuel st = Some res ->
    exists st', matches (Star r1) st st' /\ k st' = Some res.
Proof.
  intros IH. induction fuel as [|fuel IHf]; intros st res H; simpl in H.
  - exists st. split; [constructor | assumption].
  - destruct (rmatch r1 st _) as [res'|] eqn:E.
    + injection H as ->. apply IH in E as (st1 & M1 & K1).
      destruct (_ <? _)%nat; [|discriminate].
      apply IHf in K1 as (st2 & M2 & K2).
      exists st2. split; [econstructor; eassumption | assumption].
    + exists st. split; [constructor | assumption].
Qed.

Lemma count_loop_sound r1 (k : cont) :
  (forall st k res, rmatch r1 st k = Some res ->
     exists st', matches r1 st st' /\ k st' = Some res) ->
  forall n st res,
    count_loop (rmatch r1) k n st = Some res ->
    exists st', matches (Count n r1) st st' /\ k st' = Some res.
Proof.
  intros IH. induction n as [|n IHn]; intros st res H; simpl in H.
  - exists st. split; [constructor | assumption].
  - apply IH in H as (st1 & M1 & K1).
    apply IHn in K1 as (st2 & M2 & K2).
    exists st2. split; [econstructor; eassumption | assumption].
Qed.

(** Whatever the matcher returns is a match in the sense of [matches],
    accepted by the continuation. *)
Lemma rmatch_sound r :
  forall st k res, rmatch r st k = Some res ->
    exists st', matches r st st' /\ k st' = Some res.
Proof.
  induction r as [|c| |cs| |r1 IH1 r2 IH2|r1 IH1 r2 IH2|r1 IH1|n r1 IH1|i r1 IH1];
    intros st k res H; simpl in H.
  - exists st. split; [constructor | assumption].
  - destruct (remaining st) as [|c' t] eqn:E; [discriminate|].
    destruct (N.eqb_spec c c') as [->|]; [|discriminate].
    eexists. split; [eapply matches_lit; eassumption | eassumption].
  - destruct (remaining st) as [|c' t] eqn:E; [discriminate|].
    destruct (is_word c') eqn:W; [|discriminate].
    eexists. split; [eapply matches_word; eassumption | eassumption].
  - destruct (remaining st) as [|c' t] eqn:E; [discriminate|].
    destruct (existsb _ cs) eqn:W; [|discriminate].
    eexists. split; [eapply matches_oneof; eassumption | eassumption].
  - destruct (at_boundary st) eqn:B; [|discriminate].
    exists st. split; [now constructor | assumption].
  - apply IH1 in H as (st1 & M1 & K1). apply IH2 in K1 as (st2 & M2 & K2).
    exists st2. split; [econstructor; eassumption | assumption].
  - destruct (rmatch r1 st k) as [res'|] eqn:E.
    + injection H as ->. apply IH1 in E as (st1 & M1 & K1).
      exists st1. split; [now apply matches_alt_l | assumption].
    + apply IH2 in H as (st2 & M2 & K2).
      exists st2. split; [now apply matches_alt_r | assumption].
  - exact (star_loop_sound r1 k IH1 (S (length (remaining st))) st res H).
  - exact (count_loop_sound r1 k IH1 n st res H).
  - apply IH1 in H as (st1 & M1 & K1).
    eexists. split; [apply matches_group; eassumption | assumption].
Qed.

(** The matcher looks at its continuation only through its results. *)
Lemma star_loop_ext r1 (k k' : cont) :
  (forall st (k k' : cont),
      (forall st', k st' = k' st') -> rmatch r1 st k = rmatch r1 st k') ->
  (forall st, k st = k' st) ->
  forall fuel st,
    star_loop (rmatch r1) k fuel st = star_loop (rmatch r1) k' fuel st.
Proof.
  intros IH Hk. induction fuel as [|fuel IHf]; intros st; simpl; [apply Hk|].
  rewrite (IH st _ (fun st' =>
             if (length (remaining st') <? length (remaining st))%nat
             then star_loop (rmatch r1) k' fuel st' else None)).
  - now rewrite Hk.
  - intros st'. now rewrite IHf.
Qed.

Lemma count_loop_ext r1 (k k' : cont) :
  (forall st (k k' : cont),
      (forall st', k st' = k' st') -> rmatch r1 st k = rmatch r1 st k') ->
  (forall st, k st = k' st) ->
  forall n st,
    count_loop (rmatch r1) k n st = count_loop (rmatch r1) k' n st.
Proof.
  intros IH Hk. induction n as [|n IHn]; intros st; simpl; [apply Hk|].
  now apply IH.
Qed.

Lemma rmatch_ext r : forall st (k k' : cont),
  (forall st', k st' = k' st') -> rmatch r st k = rmatch r st k'.
Proof.
  induction r as [|c| |cs| |r1 IH1 r2 IH2|r1 IH1 r2 IH2|r1 IH1|n r1 IH1|i r1 IH1];
    intros st k k' Hk; simpl.
  - apply Hk.
  - destruct (remaining st); [reflexivity|]. now rewrite Hk.
  - destruct (remaining st); [reflexivity|]. now rewrite Hk.
  - destruct (remaining st); [reflexivity|]. now rewrite Hk.
  - now rewrite Hk.
  - apply IH1. intros st'. now apply IH2.
  - now rewrite (IH1 st k k' Hk), (IH2 st k k' Hk).
  - exact (star_loop_ext r1 k k' IH1 Hk (S (length (remaining st))) st).
  - exact (count_loop_ext r1 k k' IH1 Hk n st).
  - apply IH1. intros st'. apply Hk.
Qed.

(** The fuel of the greedy loop never runs out: any amount above the
    length of the subject left gives the same result. *)
Lemma star_loop_fuel r1 (k : cont) : forall fuel fuel' st,
  (length (remaining st) < fuel)%nat ->
  (length (remaining st) < fuel')%nat ->
  star_loop (rmatch r1) k fuel st = star_loop (rmatch r1) k fuel' st.
Proof.
  induction fuel as [|fuel IH]; intros fuel' st H H'; [lia|].
  destruct fuel' as [|fuel']; [lia|]. simpl.
  rewrite (rmatch_ext r1 st _ (fun st' =>
             if (length (remaining st') <? length (remaining st))%nat
             then star_loop (rmatch r1) k fuel' st' else None));
    [reflexivity|].
  intros st'.
  destruct (Nat.ltb_spec (length (remaining st')) (length (remaining st)));
    [|reflexivity].
  apply IH; lia.
Qed.

(** A match only moves forward in the subject: what it leaves is the
    end of what it found, and what it passed is added to the text
    behind. *)
Lemma matches_forward r st st' :
  matches r st st' ->
  exists w, remaining st = w ++ remaining st' /\
            consumed st' = rev w ++ consumed st.
Proof.
  induction 1 as
    [st|c t st R|c t st R W|cs c t st R W|st B
     |r1 r2 st st1 st2 _ (w1 & R1 & C1) _ (w2 & R2 & C2)
     |r1 r2 st st1 _ IH|r1 r2 st st2 _ IH|r st
     |r st st1 st2 _ (w1 & R1 & C1) _ (w2 & R2 & C2)|r st
     |n r st st1 st2 _ (w1 & R1 & C1) _ (w2 & R2 & C2)
     |i r st st1 _ IH];
    try (now exists []); try (now exists [c]); try assumption;
    try (exists (w1 ++ w2); split;
         [now rewrite R1, R2, app_assoc
         |now rewrite C2, C1, rev_app_distr, app_assoc]).
Qed.

(** Inversion of [matches], one lemma per shape of pattern. *)
Lemma matches_seq_inv r1 r2 st st' :
  matches (Seq r1 r2) st st' ->
  exists st1, matches r1 st st1 /\ matches r2 st1 st'.
Proof. inversion 1; subst; eauto. Qed.

Lemma matches_eps_inv st st' : matches Eps st st' -> st' = st.
Proof. now inversion 1. Qed.

Lemma matches_lit_inv c st st' :
  matches (Lit c) st st' ->
  exists t, remaining st = c :: t /\ st' = advance st c t.
Proof. inversion 1; subst; eauto. Qed.

Lemma matches_word_inv st st' :
  matches WordChar st st' ->
  exists c t, remaining st = c :: t /\ is_word c = true
              /\ st' = advance st c t.
Proof. inversion 1; subst; eauto 6. Qed.

Lemma matches_oneof_inv cs st st' :
  matches (OneOf cs) st st' ->
  exists c t, remaining st = c :: t /\ existsb (N.eqb c) cs = true
              /\ st' = advance st c t.
Proof. inversion 1; subst; eauto 6. Qed.

Lemma matches_boundary_inv st st' :
  matches Boundary st st' -> st' = st /\ at_boundary st = true.
Proof. inversion 1; subst; eauto. Qed.

Lemma matches_alt_inv r1 r2 st st' :
  matches (Alt r1 r2) st st' -> matches r1 st st' \/ matches r2 st st'.
Proof. inversion 1; subst; eauto. Qed.

Lemma matches_group_inv i r st st' :
  matches (Group i r) st st' ->
  exists st1, matches r st st1 /\ st' = capture i st st1.
Proof. inversion 1; subst; eauto. Qed.

Lemma steps_refl st : steps [] st st.
Proof. now repeat split. Qed.

Lemma steps_advance st c t :
  remaining st = c :: t -> steps [c] st (advance st c t).
Proof. intros H. repeat split; simpl; auto. Qed.

Lemma steps_trans w1 w2 st st1 st2 :
  steps w1 st st1 -> steps w2 st1 st2 -> steps (w1 ++ w2) st st2.
Proof.
  intros (R1 & C1 & G1) (R2 & C2 & G2). repeat split.
  - now rewrite R1, R2, app_assoc.
  - now rewrite C2, C1, rev_app_distr, app_assoc.
  - congruence.
Qed.

Lemma matches_lits l : forall rs st st',
  matches (mk_seq ((Lit <$> l) ++ rs)) st st' ->
  exists st1, steps l st st1 /\ matches (mk_seq rs) st1 st'.
Proof.
  induction l as [|c l IH]; intros rs st st' H; simpl in H.
  - exists st. split; [apply steps_refl | assumption].
  - apply matches_seq_inv in H as (st1 & M1 & M2).
    apply matches_lit_inv in M1 as (t & R & ->).
    apply IH in M2 as (st2 & S2 & M2).
    exists st2. split; [|assumption].
    apply (steps_trans [c] l _ (advance st c t)); [now apply steps_advance | assumption].
Qed.

Lemma matches_star_word st st' :
  matches (Star WordChar) st st' ->
  exists w, forallb is_word w = true /\ steps w st st'.
Proof.
  intros H. remember (Star WordChar) as r eqn:Er.
  induction H; try discriminate.
  - exists []. split; [reflexivity | apply steps_refl].
  - injection Er as ->.
    apply matches_word_inv in H as (c & t & R & W & ->).
    destruct IHmatches2 as (w & Hw & S); [reflexivity|].
    exists (c :: w). split; [simpl; now rewrite W|].
    apply (steps_trans [c] w _ (advance st c t)); [now apply steps_advance | assumption].
Qed.

Lemma matches_count_word n : forall st st',
  matches (Count n WordChar) st st' ->
  exists w, length w = n /\ forallb is_word w = true /\ steps w st st'.
Proof.
  induction n as [|n IH]; intros st st' H; inversion H; subst.
  - exists []. repeat split; apply steps_refl.
  - match goal with H1 : matches WordChar _ _ |- _ =>
      apply matches_word_inv in H1 as (c & t & R & W & ->) end.
    match goal with H2 : matches (Count n _) _ _ |- _ =>
      apply IH in H2 as (w & L & Hw & S) end.
    exists (c :: w). repeat split; [simpl; lia | simpl; now rewrite W |..];
    apply (steps_trans [c] w _ (advance st c t)); auto using steps_advance.
Qed.

Lemma span_steps w st st' :
  consumed st' = rev w ++ consumed st -> span st st' = w.
Proof.
  intros H. unfold span. rewrite H, length_app, length_rev.
  replace (length w + length (consumed st) - length (consumed st))%nat
    with (length (rev w)) by (rewrite length_rev; lia).
  now rewrite take_app_length, rev_involutive.
Qed.

Lemma matches_binding_name st st' :
  matches binding_name_regex st st' ->
  exists name, is_binding_name name = true /\ steps name st st'.
Proof.
  intros H. apply matches_alt_inv in H as [H|H].
  - apply matches_lits in H as (st1 & S1 & H). simpl in H.
    apply matches_seq_inv in H as (st2 & H2 & H).
    apply matches_seq_inv in H as (st3 & H3 & H).
    apply matches_eps_inv in H as ->.
    apply matches_oneof_inv in H2 as (c & t & R & Hc & ->).
    apply matches_lit_inv in H3 as (t' & R' & ->).
    exists (py "inc_dec_" ++ [c] ++ [ch "p"]). split.
    + simpl in Hc. unfold is_binding_name.
      apply orb_prop in Hc as [Hc|Hc];
        [|apply orb_prop in Hc as [Hc|Hc]; [|discriminate]];
        apply N.eqb_eq in Hc; subst c; reflexivity.
    + eapply steps_trans; [eassumption|].
      eapply steps_trans; [eapply steps_advance; eassumption|].
      eapply steps_advance; eassumption.
  - simpl in H. apply matches_seq_inv in H as (st1 & H1 & H).
    apply matches_eps_inv in H as ->.
    apply matches_count_word in H1 as (w & L & W & S).
    exists w. split; [|assumption].
    unfold is_binding_name. rewrite L, W. apply orb_true_r.
Qed.

Lemma matches_anchor st st' :
  matches anchor_regex st st' ->
  exists name prefix,
    is_binding_name name = true /\ forallb is_word prefix = true /\
    let anchor := ch "&" :: name ++ ch " " :: prefix in
    remaining st = anchor ++ remaining st' /\
    consumed st' = rev anchor ++ consumed st /\
    captures st' = (1%nat, anchor) :: (2%nat, name) :: captures st.
Proof.
  intros H. apply matches_group_inv in H as (sta & H & ->). simpl in H.
  apply matches_seq_inv in H as (st1 & H1 & H).
  apply matches_seq_inv in H as (st2 & H2 & H).
  apply matches_seq_inv in H as (st3 & H3 & H).
  apply matches_seq_inv in H as (st4 & H4 & H).
  apply matches_eps_inv in H as ->.
  apply matches_lit_inv in H1 as (t1 & R1 & ->).
  apply matches_group_inv in H2 as (stn & H2 & ->).
  apply matches_binding_name in H2 as (name & Hname & Sn).
  apply matches_lit_inv in H3 as (t3 & R3 & ->).
  apply matches_star_word in H4 as (prefix & Hprefix & Sp).
  exists name, prefix. split; [assumption|]. split; [assumption|].
  destruct Sn as (Rn & Cn & Gn), Sp as (Rp & Cp & Gp).
  simpl in *.
  assert (Hrem : remaining st = (ch "&" :: name ++ ch " " :: prefix) ++ remaining st4).
  { rewrite R1. simpl. f_equal. rewrite Rn, R3, Rp, <- app_assoc. reflexivity. }
  assert (Hcon : consumed st4 = rev (ch "&" :: name ++ ch " " :: prefix) ++ consumed st).
  { rewrite Cp, Cn. simpl. rewrite rev_app_distr. simpl.
    rewrite <- !app_assoc. reflexivity. }
  split; [exact Hrem|]. split; [exact Hcon|].
  unfold capture. simpl. rewrite Gp. simpl.
  rewrite (span_steps _ _ _ Hcon).
  rewrite (span_steps name (advance st (ch "&") t1) stn Cn), Gn. reflexivity.
Qed.

(** Every match of the keycode pattern is an anchor, a run of word
    characters and the old keycode, between two word boundaries; the
    first group is the anchor with the run. *)
Lemma keycode_match_shape old adv before after st :
  match_here (keycode_regex old) adv before after = Some st ->
  exists name prefix,
    is_binding_name name = true /\ forallb is_word prefix = true /\
    let anchor := ch "&" :: name ++ ch " " :: prefix in
    after = anchor ++ old ++ remaining st /\
    consumed st = rev (anchor ++ old) ++ before /\
    captures st = [(1%nat, anchor); (2%nat, name)] /\
    xorb (word_at (rev anchor ++ before))
         (word_at (old ++ remaining st)) = true /\
    xorb (word_at (rev (anchor ++ old) ++ before))
         (word_at (remaining st)) = true.
Proof.
  unfold match_here. intros H.
  apply rmatch_sound in H as (st' & H & K).
  assert (st' = st) as -> by (destruct (_ && _); congruence). clear K.
  simpl in H.
  apply matches_seq_inv in H as (st1 & H1 & H).
  apply matches_seq_inv in H as (st2 & H2 & H).
  apply matches_boundary_inv in H2 as (-> & B1).
  apply matches_lits in H as (st3 & (Ro & Co & Go) & H). simpl in H.
  apply matches_seq_inv in H as (st4 & H4 & H).
  apply matches_eps_inv in H as ->.
  apply matches_boundary_inv in H4 as (-> & B2).
  apply matches_anchor in H1 as (name & prefix & Hn & Hp & Ra & Ca & Ga).
  exists name, prefix. split; [assumption|]. split; [assumption|].
  unfold at_boundary in B1, B2. cbv zeta in *.
  cbn [remaining consumed captures] in *.
  rewrite Ca, Ro in B1. rewrite Co, Ca in B2.
  repeat split.
  - rewrite Ra, Ro. now list_norm.
  - rewrite Co, Ca. now list_norm.
  - rewrite Go, Ga. reflexivity.
  - exact B1.
  - revert B2. now list_norm.
Qed.

Lemma word_not_meta c : is_word c = true -> is_meta c = false.
Proof.
  unfold is_word, is_meta. intros H.
  destruct (N.ltb_spec c 128) as [Hlt|Hge].
  - unfold is_digit, is_ascii_letter in H. cbn.
    repeat match goal with
           | |- context [c =? ?n] => destruct (N.eqb_spec c n) as [->|?]; [discriminate H|]
           end.
    reflexivity.
  - cbn.
    repeat match goal with
           | |- context [c =? ?n] => destruct (N.eqb_spec c n) as [->|?]; [lia|]
           end.
    reflexivity.
Qed.

Lemma word_token_literal s : word_token s = true -> literal s = true.
Proof.
  unfold word_token, literal. destruct s as [|c s]; [discriminate|].
  generalize (c :: s). clear. intros l H. induction l as [|x l IH]; [reflexivity|].
  simpl in *. apply andb_prop in H as [Hx Hl].
  now rewrite (word_not_meta x Hx), IH.
Qed.

Lemma word_at_rev_app s x :
  word_token s = true -> word_at (rev s ++ x) = true.
Proof.
  unfold word_token. destruct s as [|c s]; [discriminate|].
  intros H. destruct (rev (c :: s)) as [|y ys] eqn:E.
  { apply (f_equal length) in E. rewrite length_rev in E. discriminate. }
  simpl. rewrite forallb_forall in H. apply H.
  apply in_rev. rewrite E. now left.
Qed.

Lemma word_at_app s x : word_token s = true -> word_at (s ++ x) = true.
Proof.
  unfold word_token. destruct s as [|c s]; [discriminate|].
  simpl. intros H. now apply andb_prop in H as [Hc _].
Qed.

(** The matcher on a run of literals. *)
Lemma rmatch_lits l : forall rs st t k,
  remaining st = l ++ t ->
  rmatch (mk_seq ((Lit <$> l) ++ rs)) st k =
  rmatch (mk_seq rs)
    {| consumed := rev l ++ consumed st; remaining := t;
       captures := captures st |} k.
Proof.
  induction l as [|c l IH]; intros rs st t k R.
  - simpl in *. destruct st; simpl in *. now subst.
  - simpl in *. rewrite R, N.eqb_refl.
    rewrite (IH rs _ t k) by reflexivity. simpl.
    now rewrite <- app_assoc.
Qed.

Lemma is_word_space : is_word (ch " ") = false.
Proof. reflexivity. Qed.

Lemma is_word_amp : is_word (ch "&") = false.
Proof. reflexivity. Qed.

(** After a word character the loop of [\w*] cannot hand over to a
    continuation that wants a word boundary and then a word
    character. *)
Lemma star_word_blocked (k : cont) :
  (forall st, word_at (consumed st) = true -> k st = None) ->
  forall fuel st, word_at (consumed st) = true ->
    star_loop (rmatch WordChar) k fuel st = None.
Proof.
  intros Hk. induction fuel as [|fuel IH]; intros st W; simpl.
  - now apply Hk.
  - destruct (remaining st) as [|c t]; [now apply Hk|].
    destruct (is_word c) eqn:Wc; [|now apply Hk].
    destruct (_ <? _)%nat; [|now apply Hk].
    rewrite IH by exact Wc. now apply Hk.
Qed.

Lemma star_word_first (k : cont) fuel st :
  (forall st, word_at (consumed st) = true -> k st = None) ->
  star_loop (rmatch WordChar) k fuel st = k st.
Proof.
  intros Hk. destruct fuel as [|fuel]; [reflexivity|]. simpl.
  destruct (remaining st) as [|c t]; [reflexivity|].
  destruct (is_word c) eqn:Wc; [|reflexivity].
  destruct (_ <? _)%nat; [|reflexivity].
  now rewrite star_word_blocked.
Qed.

Lemma keycode_tail_after_word old st k :
  word_token old = true -> word_at (consumed st) = true ->
  rmatch (keycode_tail old) st k = None.
Proof.
  intros Ho W. unfold keycode_tail. cbn [mk_seq rmatch].
  unfold at_boundary. fold word_at. rewrite W.
  destruct (remaining st) as [|c t] eqn:R; simpl.
  - destruct old as [|o os]; [discriminate|]. simpl. now rewrite R.
  - destruct (is_word c) eqn:Wc; [reflexivity|]. simpl.
    destruct old as [|o os]; [discriminate|]. simpl. rewrite R.
    destruct (N.eqb_spec o c) as [->|]; [|reflexivity].
    simpl in Ho. apply andb_prop in Ho as [Ho _]. congruence.
Qed.

Lemma keycode_tail_match old st post k :
  word_token old = true -> word_at (consumed st) = false ->
  remaining st = old ++ post -> word_at post = false ->
  rmatch (keycode_tail old) st k =
  k {| consumed := rev old ++ consumed st; remaining := post;
       captures := captures st |}.
Proof.
  intros Ho W R P. unfold keycode_tail. cbn [mk_seq rmatch].
  unfold at_boundary. fold word_at.
  rewrite W, R, (word_at_app old post Ho). cbn [xorb].
  rewrite (rmatch_lits old [Boundary] st post k R).
  cbn [mk_seq rmatch]. unfold at_boundary. fold word_at. cbn [consumed remaining].
  now rewrite (word_at_rev_app old _ Ho), P.
Qed.

Lemma rmatch_binding_name name c t st (k : cont) res :
  is_binding_name name = true -> is_word c = false ->
  remaining st = name ++ c :: t ->
  k {| consumed := rev name ++ consumed st; remaining := c :: t;
       captures := captures st |} = Some res ->
  rmatch binding_name_regex st k = Some res.
Proof.
  unfold is_binding_name, binding_name_regex. intros Hn Hc R K.
  eval_py.
  apply orb_prop in Hn as [Hn|Hn]; [apply orb_prop in Hn as [Hn|Hn]|].
  - apply bool_decide_eq_true in Hn. subst name.
    cbn in K |- *. rewrite R. cbn. unfold advance. cbn. now rewrite K.
  - apply bool_decide_eq_true in Hn. subst name.
    cbn in K |- *. rewrite R. cbn. unfold advance. cbn. now rewrite K.
  - apply andb_prop in Hn as [L W].
    destruct name as [|a [|b [|]]]; try discriminate. clear L.
    simpl in W. apply andb_prop in W as [Wa W]. apply andb_prop in W as [Wb _].
    cbn in R. cbn in K.
    cbn [rmatch].
    destruct (rmatch _ st k) as [bad|] eqn:E.
    { exfalso. apply rmatch_sound in E as (st' & M & _).
      apply (matches_lits [105; 110; 99; 95; 100; 101; 99; 95])
        in M as (st1 & (R1 & _) & _).
      rewrite R in R1. injection R1 as _ _ -> _. vm_compute in Hc. discriminate Hc. }
    cbn [mk_seq rmatch count_loop]. rewrite R, Wa.
    cbn [remaining advance]. rewrite Wb. exact K.
Qed.

(** The match at an anchor that is followed at once by the old keycode
    as a whole word. *)
Lemma keycode_match_here old name post before :
  word_token old = true -> is_binding_name name = true ->
  word_at post = false ->
  match_here (keycode_regex old) false before
             (ch "&" :: name ++ ch " " :: old ++ post) =
  Some {| consumed := rev (ch "&" :: name ++ ch " " :: old) ++ before;
          remaining := post;
          captures := [(1%nat, ch "&" :: name ++ [ch " "]); (2%nat, name)] |}.
Proof.
  intros Ho Hn P. unfold match_here, keycode_regex. cbn [rx].
  change (mk_seq (anchor_regex :: Boundary :: (Lit <$> old) ++ [Boundary]))
    with (Seq anchor_regex (keycode_tail old)).
  unfold anchor_regex.
  cbn [mk_seq rmatch remaining]. rewrite N.eqb_refl.
  eapply rmatch_binding_name; [exact Hn | exact is_word_space | reflexivity |].
  cbn [rmatch remaining advance consumed captures capture]. rewrite N.eqb_refl.
  rewrite star_word_first.
  2:{ intros st W. cbn [rmatch]. apply keycode_tail_after_word; assumption. }
  cbn [rmatch].
  erewrite (keycode_tail_match old _ post); [| exact Ho | reflexivity | reflexivity | exact P].
  cbn [andb]. unfold capture. cbn [consumed captures advance remaining].
  rewrite (span_steps (ch "&" :: name ++ [ch " "]) _ _)
    by (cbn [consumed advance]; list_norm; reflexivity).
  rewrite (span_steps name _ _) by (cbn [consumed advance]; reflexivity).
  f_equal. f_equal. list_norm. reflexivity.
Qed.

Lemma expand_lits s st : expand (TLit <$> s) st = s.
Proof. induction s as [|c s IH]; simpl; [reflexivity | f_equal; exact IH]. Qed.

(** For a keycode of word characters the run of word characters before
    it is empty: the keycode follows the space of the anchor at once. *)
Lemma keycode_match_word old adv before after st :
  word_token old = true ->
  match_here (keycode_regex old) adv before after = Some st ->
  exists name,
    is_binding_name name = true /\
    after = ch "&" :: name ++ ch " " :: old ++ remaining st /\
    word_at (remaining st) = false /\
    captures st = [(1%nat, ch "&" :: name ++ [ch " "]); (2%nat, name)].
Proof.
  intros Ho H. apply keycode_match_shape in H
    as (name & prefix & Hn & Hp & Ha & Hc & Hg & B1 & B2).
  cbv zeta in *.
  rewrite (word_at_app old _ Ho) in B1.
  revert B2. list_norm. rewrite (word_at_rev_app old _ Ho). intros B2.
  assert (prefix = []) as ->.
  { destruct prefix as [|c prefix]; [reflexivity|]. exfalso.
    replace (ch "&" :: name ++ ch " " :: c :: prefix)
      with ((ch "&" :: name ++ [ch " "]) ++ (c :: prefix)) in B1
      by (now list_norm).
    rewrite rev_app_distr, <- app_assoc in B1.
    rewrite (word_at_rev_app (c :: prefix)) in B1; [discriminate|].
    exact Hp. }
  exists name. repeat split; try assumption.
  - rewrite Ha. now list_norm.
  - now destruct (word_at (remaining st)).
Qed.

Lemma match_here_amp old adv before after :
  head after <> Some (ch "&") ->
  match_here (keycode_regex old) adv before after = None.
Proof.
  intros H. destruct (match_here _ _ _ _) as [st|] eqn:E; [|reflexivity].
  apply keycode_match_shape in E as (name & prefix & _ & _ & Ha & _).
  cbv zeta in Ha. subst after. now destruct H.
Qed.

Lemma search_no_amp old s : forall before,
  ch "&" ∉ s -> search_from (keycode_regex old) before s = None.
Proof.
  induction s as [|c s IH]; intros before H; cbn [search_from].
  - now rewrite match_here_amp.
  - rewrite match_here_amp.
    + apply IH. intros Hin. apply H. now right.
    + simpl. intros [= ->]. apply H. now left.
Qed.

(** Passing the characters of a match. *)
Lemma sub_from_skip p t w : forall before rest,
  sub_from p t (length w) before (w ++ rest) =
  sub_from p t 0 (rev w ++ before) rest.
Proof.
  induction w as [|c w IH]; intros before rest; [reflexivity|].
  transitivity (sub_from p t (length w) (c :: before) (w ++ rest));
    [reflexivity|].
  rewrite IH. simpl. now rewrite <- app_assoc.
Qed.

Lemma word_not_amp s : forallb is_word s = true -> ch "&" ∉ s.
Proof.
  intros H Hin. rewrite forallb_forall in H.
  apply list_elem_of_In in Hin. apply H in Hin. discriminate Hin.
Qed.

Lemma expand_replacement new st anchor name :
  captures st = [(1%nat, anchor); (2%nat, name)] ->
  expand (replacement_items new) st = anchor ++ new.
Proof.
  intros H. unfold replacement_items. cbn [expand]. rewrite H.
  cbn. f_equal. apply expand_lits.
Qed.


(** Characters before the first anchor are kept. *)
Lemma sub_from_no_amp old t pre : forall before rest,
  ch "&" ∉ pre ->
  sub_from (keycode_regex old) t 0 before (pre ++ rest) =
  pre ++ sub_from (keycode_regex old) t 0 (rev pre ++ before) rest.
Proof.
  induction pre as [|c pre IH]; intros before rest H; [reflexivity|].
  cbn [app sub_from].
  rewrite match_here_amp.
  2:{ simpl. intros [= ->]. apply H. now left. }
  cbn [app]. f_equal. rewrite IH.
  - simpl. now rewrite <- app_assoc.
  - intros Hin. apply H. now right.
Qed.

Lemma sub_from_nil old t before :
  sub_from (keycode_regex old) t 0 before [] = [].
Proof.
  cbn [sub_from]. now rewrite match_here_amp.
Qed.

Lemma search_from_no_amp_prefix old pre : forall before rest,
  ch "&" ∉ pre ->
  search_from (keycode_regex old) before (pre ++ rest) =
  search_from (keycode_regex old) (rev pre ++ before) rest.
Proof.
  induction pre as [|c pre IH]; intros before rest H; [reflexivity|].
  cbn [app search_from].
  rewrite match_here_amp.
  2:{ simpl. intros [= ->]. apply H. now left. }
  rewrite IH.
  - simpl. now rewrite <- app_assoc.
  - intros Hin. apply H. now right.
Qed.

(** A line with one anchored old keycode, and no other anchor mark, is
    found and rewritten as expected. *)
Lemma sub_single old new name pre post :
  word_token old = true -> is_binding_name name = true ->
  ch "&" ∉ pre -> ch "&" ∉ post -> word_at post = false ->
  re_search (keycode_regex old)
            (pre ++ ch "&" :: name ++ ch " " :: old ++ post) = true /\
  sub_from (keycode_regex old) (replacement_items new) 0 []
           (pre ++ ch "&" :: name ++ ch " " :: old ++ post) =
  pre ++ ch "&" :: name ++ ch " " :: new ++ post.
Proof.
  intros Ho Hn Hpre Hpost Wp. split.
  - unfold re_search, re_search.
    rewrite search_from_no_amp_prefix by assumption.
    cbn [search_from].
    rewrite (keycode_match_here old name post) by assumption.
    apply bool_decide_eq_true. eauto.
  - rewrite sub_from_no_amp by assumption. f_equal.
    cbn [sub_from].
    rewrite (keycode_match_here old name post) by assumption.
    rewrite (expand_replacement new _ (ch "&" :: name ++ [ch " "]) name)
      by reflexivity.
    cbn [remaining].
    replace (length (ch "&" :: name ++ ch " " :: old ++ post) - length post)%nat
      with (S (length (name ++ ch " " :: old)))
      by (simpl; rewrite !length_app; simpl; rewrite !length_app; lia).
    cbn [app].
    replace (name ++ ch " " :: old ++ post)
      with ((name ++ ch " " :: old) ++ post) by (now list_norm).
    rewrite sub_from_skip.
    rewrite <- (app_nil_r post) at 1.
    rewrite sub_from_no_amp by assumption.
    rewrite sub_from_nil. rewrite app_nil_r. now list_norm.
Qed.

Lemma binding_name_word name :
  is_binding_name name = true -> forallb is_word name = true.
Proof.
  unfold is_binding_name, is_binding_name. intros H.
  apply orb_prop in H as [H|H]; [apply orb_prop in H as [H|H]|].
  - apply bool_decide_eq_true in H. now subst.
  - apply bool_decide_eq_true in H. now subst.
  - now apply andb_prop in H.
Qed.

(** Two runs of word characters that end at a non-word character in the
    same text are the same run. *)
Lemma word_run_unique a : forall b x y r r',
  forallb is_word a = true -> forallb is_word b = true ->
  is_word x = false -> is_word y = false ->
  a ++ x :: r = b ++ y :: r' -> a = b /\ x = y /\ r = r'.
Proof.
  induction a as [|c a IH]; intros [|d b] x y r r' Ha Hb Hx Hy E; simpl in *.
  - now injection E as -> ->.
  - injection E as -> _. apply andb_prop in Hb as [Hb _]. congruence.
  - injection E as -> _. apply andb_prop in Ha as [Ha _]. congruence.
  - injection E as -> E. apply andb_prop in Ha as [_ Ha].
    apply andb_prop in Hb as [_ Hb].
    destruct (IH b x y r r' Ha Hb Hx Hy E) as (-> & -> & ->). auto.
Qed.

Lemma word_token_forallb s : word_token s = true -> forallb is_word s = true.
Proof. unfold word_token, word_token. now destruct s. Qed.

(** The old keycode as the beginning of a longer word is not found. *)
Lemma search_longer_word old name more :
  word_token old = true -> is_binding_name name = true ->
  word_token more = true ->
  re_search (keycode_regex old)
            (ch "&" :: name ++ ch " " :: old ++ more) = false.
Proof.
  intros Ho Hn Hm. unfold re_search, re_search.
  apply bool_decide_eq_false. intros [st H].
  cbn [search_from] in H.
  destruct (match_here _ _ _ _) as [st'|] eqn:E.
  - apply (keycode_match_word old) in E as (name' & Hn' & Ha & W & _);
      [|assumption].
    injection Ha as Ha.
    apply word_run_unique in Ha as (-> & _ & Ha);
      auto using binding_name_word.
    apply app_inv_head in Ha. rewrite <- Ha in W.
    rewrite <- (app_nil_r more), (word_at_app more []) in W by assumption.
    discriminate.
  - rewrite search_no_amp in H; [discriminate|].
    apply not_elem_of_app. split; [now apply word_not_amp, binding_name_word|].
    apply not_elem_of_cons. split; [discriminate|].
    apply not_elem_of_app.
    split; now apply word_not_amp, word_token_forallb.
Qed.

(** The old keycode as a later argument is not found. *)
Lemma search_later_argument old name arg :
  word_token old = true -> is_binding_name name = true ->
  word_token arg = true -> arg <> old ->
  re_search (keycode_regex old)
            (ch "&" :: name ++ ch " " :: arg ++ ch " " :: old) = false.
Proof.
  intros Ho Hn Hm Hne. unfold re_search, re_search.
  apply bool_decide_eq_false. intros [st H].
  cbn [search_from] in H.
  destruct (match_here _ _ _ _) as [st'|] eqn:E.
  - apply (keycode_match_word old) in E as (name' & Hn' & Ha & W & _);
      [|assumption].
    injection Ha as Ha.
    apply word_run_unique in Ha as (-> & _ & Ha);
      auto using binding_name_word.
    destruct (remaining st') as [|y r'].
    + apply (f_equal length) in Ha. rewrite app_nil_r, length_app in Ha.
      simpl in Ha. lia.
    + simpl in W. symmetry in Ha.
      apply word_run_unique in Ha as (-> & _ & _);
        auto using word_token_forallb.
  - rewrite search_no_amp in H; [discriminate|].
    apply not_elem_of_app. split; [now apply word_not_amp, binding_name_word|].
    apply not_elem_of_cons. split; [discriminate|].
    apply not_elem_of_app.
    split; [now apply word_not_amp, word_token_forallb|].
    apply not_elem_of_cons. split; [discriminate|].
    now apply word_not_amp, word_token_forallb.
Qed.

(** ** The loops of the script *)

Lemma emit_nil w : emit [] w = w.
Proof. destruct w. unfold emit. simpl. now rewrite app_nil_r. Qed.

Lemma emit_emit a b w : emit b (emit a w) = emit (a ++ b) w.
Proof. unfold emit. simpl. now rewrite app_assoc. Qed.

Lemma lines_to_update_from p lines : forall i,
  length ((filter (fun il => re_search p il.2) (enumerate i lines)).*1)
  = length (List.filter (re_search p) lines).
Proof.
  induction lines as [|l lines IH]; intros i; [reflexivity|].
  cbn [enumerate List.filter]. rewrite filter_cons. cbn [snd].
  destruct (re_search p l); simpl; now rewrite IH.
Qed.

Lemma lines_to_update_length p lines :
  length (lines_to_update p lines) = length (List.filter (re_search p) lines).
Proof. apply lines_to_update_from. Qed.

Lemma lines_to_update_hits old lines :
  length (lines_to_update (keycode_regex old) lines) = hits old lines.
Proof. apply lines_to_update_length. Qed.

Lemma lines_to_update_none p lines :
  Forall (fun l => re_search p l = false) lines ->
  lines_to_update p lines = [].
Proof.
  intros H. apply length_zero_iff_nil. rewrite lines_to_update_length.
  induction H as [|l lines Hl _ IH]; [reflexivity|].
  simpl. now rewrite Hl.
Qed.

(** The loop over the listed lines does what a map over all the lines
    does: a line the pattern is found in is replaced by its [sub], the
    others stay. *)
Lemma update_lines_from p repl t rest : forall done,
  parse_template (groups p) repl = Ret t ->
  update_lines p repl
    ((filter (fun il => re_search p il.2) (enumerate (length done) rest)).*1)
    (done ++ rest)
  = Ret (done ++ ((fun l => if re_search p l then sub_from p t 0 [] l else l)
                    <$> rest)).
Proof.
  induction rest as [|l rest IH]; intros done Ht; [reflexivity|].
  cbn [enumerate].
  destruct (re_search p l) eqn:S.
  - rewrite filter_cons_True by (cbn [snd]; now rewrite S).
    cbn [fmap list_fmap fst update_lines].
    rewrite list_lookup_middle by reflexivity.
    unfold re_sub. rewrite Ht. cbn [obind].
    rewrite insert_app_r_alt by lia. rewrite Nat.sub_diag. cbn [insert list_insert].
    specialize (IH (done ++ [sub_from p t 0 [] l]) Ht).
    rewrite length_app, Nat.add_1_r, <- app_assoc in IH. cbn [app] in IH.
    rewrite IH. cbn [fmap list_fmap]. rewrite S. now rewrite <- app_assoc.
  - rewrite filter_cons_False by (cbn [snd]; now rewrite S).
    specialize (IH (done ++ [l]) Ht).
    rewrite length_app, Nat.add_1_r, <- app_assoc in IH. cbn [app] in IH.
    rewrite IH. cbn [fmap list_fmap]. rewrite S. now rewrite <- app_assoc.
Qed.

Lemma update_lines_map p repl t lines :
  parse_template (groups p) repl = Ret t ->
  update_lines p repl (lines_to_update p lines) lines
  = Ret ((fun l => if re_search p l then sub_from p t 0 [] l else l)
           <$> lines).
Proof. intros Ht. exact (update_lines_from p repl t lines [] Ht). Qed.

Lemma compile_literal old :
  literal old = true ->
  compile (old_keycode_pattern old) = Ret (keycode_regex old).
Proof. intros H. unfold compile. now rewrite compile_keycode. Qed.

(** A dry run prints its report and leaves the lines alone. *)
Lemma substitute_dry p table : forall lines w,
  dry_run ARGS = true ->
  Forall (fun s : substitution => literal s.1 = true) table ->
  substitute p (to_json <$> table) lines w
  = (emit (dry_report (path_str p) table lines) w, Ret lines).
Proof.
  induction table as [|[old new] table IH]; intros lines w Hdry Hlit.
  - cbn. now rewrite emit_nil.
  - inversion Hlit as [|? ? Ho Hrest]; subst. cbn [fst] in Ho.
    cbn [fmap list_fmap to_json fst snd substitute dry_report].
    unfold bind at 1. cbn [lift format_value].
    unfold bind at 1. rewrite (compile_literal old Ho). cbn [lift].
    rewrite <- lines_to_update_hits.
    destruct (lines_to_update (keycode_regex old) lines) as [|i is_] eqn:E.
    + cbn [length app]. apply IH; assumption.
    + cbn [length]. destruct new as [new|].
      * unfold bind at 1. cbn [lift format_value]. rewrite Hdry.
        unfold bind at 1. cbn [print].
        fold (emit [would_replace_message old new (S (length is_))] w).
        rewrite (IH lines _ Hdry Hrest). now rewrite emit_emit.
      * unfold bind at 1. cbn [print].
        fold (emit [no_replacement_message (path_str p) old] w).
        rewrite (IH lines _ Hdry Hrest). now rewrite emit_emit.
Qed.

(** A run that writes makes the passes of the table one after the
    other. *)
Lemma substitute_run p table : forall lines w,
  dry_run ARGS = false ->
  Forall (fun s => plain s = true) table ->
  substitute p (to_json <$> table) lines w
  = (emit (run_report (path_str p) table lines) w, Ret (passes table lines)).
Proof.
  induction table as [|[old new] table IH]; intros lines w Hdry Hplain.
  - cbn. now rewrite emit_nil.
  - inversion Hplain as [|? ? Ho Hrest]; subst.
    unfold plain in Ho. cbn [fst snd] in Ho. apply andb_prop in Ho as [Ho Hn].
    cbn [fmap list_fmap to_json fst snd substitute run_report passes fold_left].
    fold (passes table (pass (old, new) lines)).
    unfold bind at 1. cbn [lift format_value].
    unfold bind at 1. rewrite (compile_literal old Ho). cbn [lift].
    rewrite <- lines_to_update_hits.
    destruct (lines_to_update (keycode_regex old) lines) as [|i is_] eqn:E.
    + assert (pass (old, new) lines = lines) as ->.
      { destruct new as [new|]; [|reflexivity]. unfold pass. cbn [fst snd].
        apply (f_equal length) in E. rewrite lines_to_update_length in E.
        clear -E. induction lines as [|l lines IHl]; [reflexivity|].
        cbn [List.filter] in E. unfold line_pass at 1. cbn [fmap list_fmap].
        destruct (re_search (keycode_regex old) l); [discriminate|].
        f_equal. now apply IHl. }
      destruct new; cbn [length app]; apply IH; assumption.
    + cbn [length]. destruct new as [new|].
      * unfold bind at 1. cbn [lift format_value]. rewrite Hdry.
        unfold bind at 1. rewrite <- E.
        rewrite (update_lines_map _ _ (replacement_items new))
          by (now apply parse_replacement).
        cbn [lift app]. apply IH; assumption.
      * unfold bind at 1. cbn [print].
        fold (emit [no_replacement_message (path_str p) old] w).
        rewrite (IH _ _ Hdry Hrest). now rewrite emit_emit.
Qed.

(** Nothing is found: nothing is printed and the lines stay. *)
Lemma substitute_unmatched p subs lines : forall w,
  Forall (fun s : json * json =>
            exists old pat,
              format_value s.1 = Ret old /\
              re_compile (old_keycode_pattern old) = Some pat /\
              Forall (fun l => re_search pat l = false) lines) subs ->
  substitute p subs lines w = (w, Ret lines).
Proof.
  induction subs as [|[o n] subs IH]; intros w H; [reflexivity|].
  inversion H as [|? ? (old & pat & Hf & Hc & Hs) Hrest]; subst.
  cbn [fst] in Hf. cbn [substitute].
  unfold bind at 1. rewrite Hf. cbn [lift].
  unfold bind at 1. unfold compile. rewrite Hc. cbn [lift].
  rewrite (lines_to_update_none pat lines Hs). now apply IH.
Qed.

(** [format_file] around the loop. *)
Lemma format_file_eq p subs w content text out lines' content' :
  files w !! path_str p = Some content ->
  utf8_decode content = Some text ->
  substitute p subs (str_split newline text) w = (emit out w, Ret lines') ->
  utf8_encode (str_join newline lines') = Some content' ->
  format_file p subs w = (written_back p content' out w, Ret tt).
Proof.
  intros Hf Hd Hs He. unfold format_file.
  unfold bind at 1. unfold read_bytes. rewrite Hf.
  unfold bind at 1. unfold decode. rewrite Hd. cbn [lift].
  unfold bind at 1. rewrite Hs.
  unfold bind at 1. unfold encode. rewrite He. cbn [lift].
  reflexivity.
Qed.

(** Writing back what was read changes no file. *)
Lemma written_back_same p content out w :
  files w !! path_str p = Some content ->
  written_back p content out w
  = {| files := files w; dirs := dirs w; stdout := stdout w ++ out;
       written := written w ++ [(path_str p, content)] |}.
Proof. intros H. unfold written_back. now rewrite insert_id. Qed.

Lemma encode_decoded content text :
  utf8_decode content = Some text ->
  utf8_encode (str_join newline (str_split newline text)) = Some content.
Proof. intros H. rewrite str_join_split. now apply utf8_roundtrip. Qed.

(** From here on the text of the pattern is used through
    [compile_literal] only. *)
Opaque old_keycode_pattern.

(** In a dry run the loop keeps the lines and the files, whatever the
    table holds and however the loop ends. *)
Lemma substitute_dry_frame p subs : forall lines w w' r,
  dry_run ARGS = true ->
  substitute p subs lines w = (w', r) ->
  files w' = files w /\ written w' = written w /\
  forall lines', r = Ret lines' -> lines' = lines.
Proof.
  induction subs as [|[o n] subs IH]; intros lines w w' r Hdry H.
  - injection H as <- <-. repeat split. now intros ? [= <-].
  - cbn [substitute] in H. unfold bind at 1 in H. unfold lift at 1 in H.
    destruct (format_value o) as [old| |];
      [|injection H as <- <-; repeat split; intros; discriminate..].
    unfold bind at 1 in H. unfold lift at 1 in H.
    destruct (compile (old_keycode_pattern old)) as [pat| |];
      [|injection H as <- <-; repeat split; intros; discriminate..].
    destruct (lines_to_update pat lines) as [|i is_]; [now apply (IH lines w)|].
    assert (forall out,
               substitute p subs lines (emit out w) = (w', r) ->
               files w' = files w /\ written w' = written w /\
               forall lines', r = Ret lines' -> lines' = lines) as Hout
      by (intros out Hs; apply (IH lines (emit out w) w' r Hdry Hs)).
    destruct n as [|b|?|new|?|?].
    + unfold bind at 1 in H. cbn [print] in H. now apply Hout in H.
    + unfold bind at 1 in H. unfold lift at 1 in H.
      destruct b; cbn [format_value] in H; rewrite Hdry in H;
        unfold bind at 1 in H; cbn [print] in H; now apply Hout in H.
    + injection H as <- <-; repeat split; intros; discriminate.
    + unfold bind at 1 in H. unfold lift at 1 in H.
      cbn [format_value] in H. rewrite Hdry in H.
      unfold bind at 1 in H. cbn [print] in H. now apply Hout in H.
    + injection H as <- <-; repeat split; intros; discriminate.
    + injection H as <- <-; repeat split; intros; discriminate.
Qed.

(** ** One substitution on the lines of a file *)

Lemma line_pass_anchor old new name :
  word_token old = true -> is_binding_name name = true ->
  line_pass old new (ch "&" :: name ++ ch " " :: old)
  = ch "&" :: name ++ ch " " :: new.
Proof.
  intros Ho Hn. unfold line_pass.
  destruct (sub_single old new name [] [] Ho Hn) as [Hs Hsub];
    [apply not_elem_of_nil.. | reflexivity |].
  cbn [app] in Hs, Hsub. rewrite !app_nil_r in Hs, Hsub.
  rewrite Hs, Hsub. now rewrite app_nil_r.
Qed.

Lemma line_pass_longer_word old new name more :
  word_token old = true -> is_binding_name name = true ->
  word_token more = true ->
  line_pass old new (ch "&" :: name ++ ch " " :: old ++ more)
  = ch "&" :: name ++ ch " " :: old ++ more.
Proof.
  intros Ho Hn Hm. unfold line_pass.
  now rewrite search_longer_word.
Qed.

Lemma line_pass_later_argument old new name arg :
  word_token old = true -> is_binding_name name = true ->
  word_token arg = true -> arg <> old ->
  line_pass old new (ch "&" :: name ++ ch " " :: arg ++ ch " " :: old)
  = ch "&" :: name ++ ch " " :: arg ++ ch " " :: old.
Proof.
  intros Ho Hn Hm Hne. unfold line_pass.
  now rewrite search_later_argument.
Qed.

(** A run that writes, with a table of one keycode and its
    replacement. *)
Lemma format_file_one p old new w content text content' :
  dry_run ARGS = false ->
  word_token old = true -> template_safe new = true ->
  files w !! path_str p = Some content ->
  utf8_decode content = Some text ->
  utf8_encode (str_join newline
                 (line_pass old new <$> str_split newline text))
  = Some content' ->
  format_file p [(JString old, JString new)] w
  = (written_back p content' [] w, Ret tt).
Proof.
  intros Hdry Ho Hn Hf Hd He.
  change [(JString old, JString new)] with (to_json <$> [(old, Some new)]).
  eapply format_file_eq; eauto.
  rewrite substitute_run; [reflexivity | assumption |].
  constructor; [|constructor]. unfold plain. cbn [fst snd].
  now rewrite (word_token_literal old Ho), Hn.
Qed.

Lemma lookup_line_pass old new (lines : list pystr) (i : nat) line line' :
  line_pass old new line = line' ->
  lines !! i = Some line ->
  (line_pass old new <$> lines) !! i = Some line'.
Proof. intros <- H. now rewrite list_lookup_fmap, H. Qed.





(** ** What the loop and the rewriter touch *)

Lemma emit_files out w : files (emit out w) = files w.
Proof. reflexivity. Qed.

(** The loop over the substitutions only prints. *)
Lemma substitute_frame p subs : forall lines w w' r,
  substitute p subs lines w = (w', r) -> exists out, w' = emit out w.
Proof.
  induction subs as [|[o n] subs IH]; intros lines w w' r H.
  - injection H as <- <-. exists []. now rewrite emit_nil.
  - assert (Hstop : forall (x : outcome (list pystr)),
               (w, x) = (w', r) -> exists out, w' = emit out w).
    { intros x [= <- _]. exists []. now rewrite emit_nil. }
    assert (Hout : forall out lines0,
               substitute p subs lines0 (emit out w) = (w', r) ->
               exists out', w' = emit out' w).
    { intros out lines0 Hs. apply IH in Hs as [out' ->].
      exists (out ++ out'). apply emit_emit. }
    cbn [substitute] in H. unfold bind at 1 in H. unfold lift at 1 in H.
    destruct (format_value o) as [old| |]; [|now apply Hstop in H..].
    unfold bind at 1 in H. unfold lift at 1 in H.
    destruct (compile (old_keycode_pattern old)) as [pat| |];
      [|now apply Hstop in H..].
    destruct (lines_to_update pat lines) as [|i is_]; [now apply IH in H|].
    assert (Hnew : forall new,
      (if dry_run ARGS
       then bind (print (would_replace_message old new (length (i :: is_))))
                 (fun _ => substitute p subs lines)
       else bind (lift (update_lines pat (replacement_keycode new)
                          (i :: is_) lines))
                 (fun keymap_file' => substitute p subs keymap_file')) w
      = (w', r) -> exists out, w' = emit out w).
    { intros new Hn. destruct (dry_run ARGS).
      - unfold bind at 1 in Hn. cbn [print] in Hn. now apply Hout in Hn.
      - unfold bind at 1 in Hn. unfold lift at 1 in Hn.
        destruct (update_lines pat (replacement_keycode new) (i :: is_) lines)
          as [lines0| |]; [|now apply Hstop in Hn..].
        now apply IH in Hn. }
    destruct n as [|b|?|new|?|?].
    + unfold bind at 1 in H. cbn [print] in H. now apply Hout in H.
    + unfold bind at 1 in H. unfold lift at 1 in H.
      destruct b; cbn [format_value] in H; now apply Hnew in H.
    + now apply Hstop in H.
    + unfold bind at 1 in H. unfold lift at 1 in H.
      cbn [format_value] in H. now apply Hnew in H.
    + now apply Hstop in H.
    + now apply Hstop in H.
Qed.

Lemma format_file_result p subs w w' r :
  format_file p subs w = (w', r) ->
  (exists out content, w' = written_back p content out w /\ r = Ret tt) \/
  (exists out, w' = emit out w /\ r <> Ret tt).
Proof.
  assert (Hnil : forall x : outcome unit,
             x <> Ret tt -> (w, x) = (w', r) ->
             exists out, w' = emit out w /\ r <> Ret tt).
  { intros x Hx [= <- <-]. exists []. now rewrite emit_nil. }
  unfold format_file. unfold bind at 1. unfold read_bytes.
  destruct (files w !! path_str p) as [content|];
    [|intros H; right; now apply Hnil in H].
  unfold bind at 1. unfold decode, lift at 1.
  destruct (utf8_decode content) as [text|];
    [|intros H; right; now apply Hnil in H].
  unfold bind at 1.
  destruct (substitute p subs (str_split newline text) w) as [w1 r1] eqn:Hs.
  apply substitute_frame in Hs as [out ->].
  destruct r1 as [lines'| |];
    [|intros [= <- <-]; right; exists out; now split..].
  unfold bind at 1. unfold encode, lift.
  destruct (utf8_encode (str_join newline lines')) as [content'|].
  - intros [= <- <-]. left. exists out, content'. now split.
  - intros [= <- <-]. right. exists out. now split.
Qed.

(** In a dry run the loop prints what [dry_reported] says. *)
Lemma substitute_dry_reported p lines subs out :
  dry_run ARGS = true ->
  dry_reported (path_str p) lines subs out ->
  forall w, substitute p subs lines w = (emit out w, Ret lines).
Proof.
  intros Hdry H.
  induction H
    as [|o n old pat rest out Ho Hc Hnone _ IH
        |o old pat rest out Ho Hc Hsome _ IH
        |o n old new pat rest out Ho Hc Hsome Hn Hnew _ IH]; intros w.
  - cbn. now rewrite emit_nil.
  - cbn [substitute]. unfold bind at 1. rewrite Ho. cbn [lift].
    unfold bind at 1. unfold compile. rewrite Hc. cbn [lift].
    unfold found in Hnone. rewrite <- lines_to_update_length in Hnone.
    apply length_zero_iff_nil in Hnone. rewrite Hnone. apply IH.
  - cbn [substitute]. unfold bind at 1. rewrite Ho. cbn [lift].
    unfold bind at 1. unfold compile. rewrite Hc. cbn [lift].
    unfold found in Hsome. rewrite <- lines_to_update_length in Hsome.
    destruct (lines_to_update pat lines) as [|i is_]; [contradiction|].
    unfold bind at 1. cbn [print].
    fold (emit [no_replacement_message (path_str p) old] w).
    rewrite IH. now rewrite emit_emit.
  - cbn [substitute]. unfold bind at 1. rewrite Ho. cbn [lift].
    unfold bind at 1. unfold compile. rewrite Hc. cbn [lift].
    unfold found in Hsome |- *. rewrite <- lines_to_update_length in Hsome |- *.
    destruct (lines_to_update pat lines) as [|i is_] eqn:E; [contradiction|].
    assert (bind (lift (format_value n))
              (fun new0 =>
                 if dry_run ARGS
                 then bind (print (would_replace_message old new0
                                     (length (i :: is_))))
                           (fun _ => substitute p rest lines)
                 else bind (lift (update_lines pat (replacement_keycode new0)
                                    (i :: is_) lines))
                           (fun keymap_file' =>
                              substitute p rest keymap_file')) w
            = (emit (would_replace_message old new (length (i :: is_)) :: out)
                    w, Ret lines)) as Hgo.
    { unfold bind at 1. rewrite Hnew. cbn [lift]. rewrite Hdry.
      unfold bind at 1. cbn [print].
      fold (emit [would_replace_message old new (length (i :: is_))] w).
      rewrite IH. now rewrite emit_emit. }
    destruct n; [contradiction|exact Hgo..].
Qed.

(** ** The comprehension of the loader *)

Lemma pairs_of_complete before : forall rest,
  Forall complete_element before ->
  exists head,
    pairs_of (before ++ rest)
    = obind (pairs_of rest) (fun tail => Ret (head ++ tail)).
Proof.
  induction before as [|e before IH]; intros rest Hall.
  - exists []. cbn [app]. now destruct (pairs_of rest).
  - inversion Hall as [|? ? (members & -> & [f Hf] & [t Ht]) Hrest]; subst.
    destruct (IH rest Hrest) as [head Hhead].
    exists ((f, t) :: head).
    cbn [app pairs_of getitem]. rewrite Hf, Ht. cbn [obind].
    rewrite Hhead. now destruct (pairs_of rest).
Qed.

Lemma load_substitutions_array path w content elements :
  files w !! path_str (Path path) = Some content ->
  json_load content = Ret (JArray elements) ->
  load_substitutions path w = (w, pairs_of elements).
Proof.
  intros Hf Hj. unfold load_substitutions.
  unfold bind at 1. unfold read_bytes. rewrite Hf.
  unfold bind at 1. now rewrite Hj.
Qed.

(** ** The claims *)

(** C1, as amended.  In a dry run no file changes, whatever the table
    holds; when the rewriter completes it has still written the file
    back, once, with the bytes it read, and apart from that it has only
    printed; and it prints one line for every pair of the table whose
    pattern is found in a line, whatever the old keycode reads as in
    the pattern: the number of lines that would change when the pair
    has a replacement, the missing replacement when it has none.  For a
    table of literal keycodes the lines printed are those of
    [dry_report]. *)
Theorem dry_run_writes_back_same_bytes p w :
  dry_run ARGS = true ->
  (forall subs, files (format_file p subs w).1 = files w) /\
  (forall subs w',
      format_file p subs w = (w', Ret tt) ->
      exists content out,
        files w !! path_str p = Some content /\
        w' = {| files := files w; dirs := dirs w;
                stdout := stdout w ++ out;
                written := written w ++ [(path_str p, content)] |}) /\
  (forall subs content text out,
      files w !! path_str p = Some content ->
      utf8_decode content = Some text ->
      dry_reported (path_str p) (str_split newline text) subs out ->
      format_file p subs w
      = ({| files := files w; dirs := dirs w;
            stdout := stdout w ++ out;
            written := written w ++ [(path_str p, content)] |}, Ret tt)) /\
  (forall table content text,
      Forall (fun s : substitution => literal s.1 = true) table ->
      files w !! path_str p = Some content ->
      utf8_decode content = Some text ->
      format_file p (to_json <$> table) w
      = ({| files := files w; dirs := dirs w;
            stdout := stdout w
                        ++ dry_report (path_str p) table
                                      (str_split newline text);
            written := written w ++ [(path_str p, content)] |}, Ret tt)).
Proof.
  intros Hdry. split; [|split; [|split]].
  - intros subs. unfold format_file.
    unfold bind at 1. unfold read_bytes.
    destruct (files w !! path_str p) as [content|] eqn:Hf; [|reflexivity].
    unfold bind at 1. unfold decode, lift at 1.
    destruct (utf8_decode content) as [text|] eqn:Hd; [|reflexivity].
    unfold bind at 1.
    destruct (substitute p subs (str_split newline text) w) as [w' r] eqn:Hs.
    destruct (substitute_dry_frame p subs _ w w' r Hdry Hs)
      as (Hfiles & _ & Hlines).
    destruct r as [lines'| |]; cbn [fst snd]; try assumption.
    rewrite (Hlines lines' eq_refl).
    unfold bind at 1. unfold encode, lift.
    rewrite (encode_decoded content text Hd).
    cbn [write_bytes fst files]. rewrite Hfiles. now apply insert_id.
  - intros subs w'. unfold format_file.
    unfold bind at 1. unfold read_bytes.
    destruct (files w !! path_str p) as [content|] eqn:Hf; [|discriminate].
    unfold bind at 1. unfold decode, lift at 1.
    destruct (utf8_decode content) as [text|] eqn:Hd; [|discriminate].
    unfold bind at 1.
    destruct (substitute p subs (str_split newline text) w) as [w1 r] eqn:Hs.
    destruct (substitute_dry_frame p subs _ w w1 r Hdry Hs)
      as (_ & _ & Hlines).
    apply substitute_frame in Hs as [out ->].
    destruct r as [lines'| |]; [|discriminate..].
    rewrite (Hlines lines' eq_refl).
    unfold bind at 1. unfold encode, lift.
    rewrite (encode_decoded content text Hd).
    intros [= <-]. exists content, out. split; [reflexivity|].
    cbn [write_bytes emit files dirs stdout written].
    now rewrite insert_id.
  - intros subs content text out Hf Hd Hrep.
    rewrite <- written_back_same by assumption.
    eapply format_file_eq; eauto using encode_decoded.
    now apply substitute_dry_reported.
  - intros table content text Hlit Hf Hd.
    rewrite <- written_back_same by assumption.
    eapply format_file_eq; eauto using substitute_dry, encode_decoded.
Qed.

(** C2, as amended.  For a JSON array of objects that each have a
    [from] and a [to] member, the loader returns the pairs of their
    values in the order of the array; a [to] of [null] is kept as the
    null value, which the rewriter takes as no replacement.  An object
    without a [to] member is not accepted: at the first such element
    the loader raises [KeyError] for [to] and returns no table,
    whatever the elements behind it are. *)
Theorem load_substitutions_in_order path w content elements :
  files w !! path_str (Path path) = Some content ->
  json_load content = Ret (JArray elements) ->
  (forall pairs,
      Forall2 (fun element (pair : json * json) =>
                 exists members,
                   element = JObject members /\
                   dict_get members (py "from") = Some pair.1 /\
                   dict_get members (py "to") = Some pair.2)
              elements pairs ->
      load_substitutions path w = (w, Ret pairs)) /\
  (forall before members after,
      elements = before ++ JObject members :: after ->
      Forall complete_element before ->
      is_Some (dict_get members (py "from")) ->
      dict_get members (py "to") = None ->
      load_substitutions path w = (w, Raise (KeyError (py "to")))).
Proof.
  intros Hf Hj.
  rewrite (load_substitutions_array path w content elements Hf Hj).
  split.
  - intros pairs Hall. f_equal. clear Hj.
    induction Hall
      as [|e [from to] es ps (members & -> & Hfrom & Hto) _ IH];
      [reflexivity|].
    cbn [fst snd] in *. cbn [pairs_of getitem]. rewrite Hfrom, Hto.
    cbn [obind]. now rewrite IH.
  - intros before members after -> Hbefore [from Hfrom] Hto. f_equal.
    destruct (pairs_of_complete before (JObject members :: after) Hbefore)
      as [head ->].
    cbn [pairs_of getitem]. now rewrite Hfrom, Hto.
Qed.

(** C3.  A file that decodes, and a table none of whose patterns is
    found in a line of it: the run that writes puts back exactly the
    bytes it read, multi-byte characters included. *)
Theorem unmatched_file_keeps_its_bytes p subs w content text :
  dry_run ARGS = false ->
  files w !! path_str p = Some content ->
  utf8_decode content = Some text ->
  Forall (fun s : json * json =>
            exists old pat,
              format_value s.1 = Ret old /\
              re_compile (old_keycode_pattern old) = Some pat /\
              Forall (fun line => re_search pat line = false)
                     (str_split newline text)) subs ->
  format_file p subs w
  = ({| files := files w; dirs := dirs w; stdout := stdout w;
        written := written w ++ [(path_str p, content)] |}, Ret tt).
Proof.
  intros _ Hf Hd Hsubs.
  rewrite <- (app_nil_r (stdout w)).
  rewrite <- written_back_same by assumption.
  eapply format_file_eq; eauto using encode_decoded.
  rewrite emit_nil. now apply substitute_unmatched.
Qed.

(** C4.  A table entry of an old keycode and its replacement, a run
    that writes: the file then holds the lines after one pass, in which
    a line [&kp OLD] has become [&kp NEW] and a line [&kp OLDX], the old
    keycode going on as a longer word, is as it was. *)
Theorem kp_line_rewritten p old new w content text content' :
  dry_run ARGS = false ->
  word_token old = true -> template_safe new = true ->
  files w !! path_str p = Some content ->
  utf8_decode content = Some text ->
  let lines := str_split newline text in
  let lines' := line_pass old new <$> lines in
  utf8_encode (str_join newline lines') = Some content' ->
  format_file p [(JString old, JString new)] w
  = (written_back p content' [] w, Ret tt) /\
  (forall i, lines !! i = Some (py "&kp " ++ old) ->
             lines' !! i = Some (py "&kp " ++ new)) /\
  (forall i more, word_token more = true ->
                  lines !! i = Some (py "&kp " ++ old ++ more) ->
                  lines' !! i = Some (py "&kp " ++ old ++ more)).
Proof.
  intros Hdry Ho Hn Hf Hd lines lines' He.
  split; [now apply (format_file_one p old new w content text)|].
  split.
  - intros i. apply lookup_line_pass.
    apply (line_pass_anchor old new (py "kp") Ho). reflexivity.
  - intros i more Hm. apply lookup_line_pass.
    apply (line_pass_longer_word old new (py "kp") more Ho); [reflexivity|].
    assumption.
Qed.

(** C5.  A keycode without a replacement that is found in the file, a
    run that writes: the file keeps its bytes and one line is printed,
    which names the file and the keycode; in any table the entry is
    passed over and the loop goes on with the next one, on the same
    lines. *)
Theorem no_replacement_is_reported p old w content text :
  dry_run ARGS = false ->
  literal old = true ->
  files w !! path_str p = Some content ->
  utf8_decode content = Some text ->
  hits old (str_split newline text) <> 0%nat ->
  format_file p [(JString old, JNull)] w
  = ({| files := files w; dirs := dirs w;
        stdout := stdout w
                    ++ [path_str p ++ py " contains " ++ old
                          ++ py ", which currently has no replacement!"];
        written := written w ++ [(path_str p, content)] |}, Ret tt) /\
  (forall rest lines w0,
      hits old lines <> 0%nat ->
      substitute p ((JString old, JNull) :: rest) lines w0
      = substitute p rest lines
          (emit [path_str p ++ py " contains " ++ old
                   ++ py ", which currently has no replacement!"] w0)).
Proof.
  intros Hdry Ho Hf Hd Hhits. split.
  - rewrite <- written_back_same by assumption.
    change [(JString old, JNull)] with (to_json <$> [(old, None)]).
    eapply format_file_eq; eauto using encode_decoded.
    rewrite substitute_run; [|assumption|].
    + cbn [run_report passes fold_left pass fst snd].
      destruct (hits old (str_split newline text)); [contradiction|].
      reflexivity.
    + constructor; [|constructor]. unfold plain. cbn [fst snd].
      now rewrite Ho.
  - intros rest lines w0 Hh. cbn [substitute].
    unfold bind at 1. cbn [lift format_value].
    unfold bind at 1. rewrite (compile_literal old Ho). cbn [lift].
    rewrite <- lines_to_update_hits in Hh.
    destruct (lines_to_update (keycode_regex old) lines); [contradiction|].
    reflexivity.
Qed.

(** C6.  When the substitution file is no regular file, or its name
    does not end in [.json], [main] prints one line and returns: no
    file is changed and nothing is written. *)
Theorem bad_substitution_file_aborts w :
  files w !! path_str (Path (substitution_file ARGS)) = None \/
  suffix (Path (substitution_file ARGS)) <> py ".json" ->
  exists message,
    main w = (emit [message] w, Ret tt) /\
    files (main w).1 = files w /\
    written (main w).1 = written w.
Proof.
  intros H.
  assert (exists message, main w = (emit [message] w, Ret tt))
    as [message Hmain].
  { unfold main. unfold bind at 1. unfold is_file.
    destruct (files w !! path_str (Path (substitution_file ARGS)))
      as [c|] eqn:E.
    - destruct H as [H|H]; [discriminate|].
      rewrite bool_decide_eq_true_2 by eauto. cbn [negb].
      rewrite bool_decide_eq_false_2 by assumption. cbn [negb].
      eexists. reflexivity.
    - rewrite bool_decide_eq_false_2 by (intros [? ?]; discriminate).
      cbn [negb]. eexists. reflexivity. }
  exists message. rewrite Hmain. repeat split.
Qed.

(** C7.  A run that writes, on a table of plain keycodes: the file then
    holds the lines after the passes of the table, made from left to
    right, each pass on the lines the one before it left; so a later
    entry finds the text an earlier entry has put in. *)
Theorem substitutions_fold_left_to_right p table w content text content' :
  dry_run ARGS = false ->
  Forall (fun s => plain s = true) table ->
  files w !! path_str p = Some content ->
  utf8_decode content = Some text ->
  utf8_encode (str_join newline
                 (fold_left (fun lines s => pass s lines) table
                            (str_split newline text)))
  = Some content' ->
  format_file p (to_json <$> table) w
  = (written_back p content'
       (run_report (path_str p) table (str_split newline text)) w, Ret tt) /\
  (forall a b c,
      word_token a = true -> word_token b = true ->
      fold_left (fun lines s => pass s lines)
                [(a, Some b); (b, Some c)] [py "&kp " ++ a]
      = [py "&kp " ++ c]).
Proof.
  intros Hdry Hplain Hf Hd He. split.
  - eapply format_file_eq; eauto. now apply substitute_run.
  - intros a b c Ha Hb. cbn [fold_left pass fst snd fmap list_fmap].
    change (py "&kp " ++ a) with (ch "&" :: py "kp" ++ ch " " :: a).
    rewrite (line_pass_anchor a b (py "kp") Ha) by reflexivity.
    rewrite (line_pass_anchor b c (py "kp") Hb) by reflexivity.
    reflexivity.
Qed.


(** C9.  What C4 says of [&kp OLD] holds as well of [&inc_dec_kp OLD]
    and of [&inc_dec_cp OLD]: after a run that writes the line is the
    same binding with the new keycode. *)
Theorem inc_dec_line_rewritten p old new w content text content' :
  dry_run ARGS = false ->
  word_token old = true -> template_safe new = true ->
  files w !! path_str p = Some content ->
  utf8_decode content = Some text ->
  let lines := str_split newline text in
  let lines' := line_pass old new <$> lines in
  utf8_encode (str_join newline lines') = Some content' ->
  format_file p [(JString old, JString new)] w
  = (written_back p content' [] w, Ret tt) /\
  (forall i, lines !! i = Some (py "&inc_dec_kp " ++ old) ->
             lines' !! i = Some (py "&inc_dec_kp " ++ new)) /\
  (forall i, lines !! i = Some (py "&inc_dec_cp " ++ old) ->
             lines' !! i = Some (py "&inc_dec_cp " ++ new)) /\
  (forall i, lines !! i = Some (py "&kp " ++ old) ->
             lines' !! i = Some (py "&kp " ++ new)).
Proof.
  intros Hdry Ho Hn Hf Hd lines lines' He.
  split; [now apply (format_file_one p old new w content text)|].
  repeat split; intros i; apply lookup_line_pass.
  - apply (line_pass_anchor old new (py "inc_dec_kp") Ho). reflexivity.
  - apply (line_pass_anchor old new (py "inc_dec_cp") Ho). reflexivity.
  - apply (line_pass_anchor old new (py "kp") Ho). reflexivity.
Qed.

(** C10.  For an old keycode of word characters every match is the
    mark, a binding name, one space and the keycode at once; so a run
    that writes leaves a line alone in which the keycode is the second
    argument of a binding, as in [&mt MOD OLD]. *)
Theorem later_argument_is_left_alone p old new w content text content' :
  dry_run ARGS = false ->
  word_token old = true -> template_safe new = true ->
  files w !! path_str p = Some content ->
  utf8_decode content = Some text ->
  let lines := str_split newline text in
  let lines' := line_pass old new <$> lines in
  utf8_encode (str_join newline lines') = Some content' ->
  (forall adv before after st,
      match_here (keycode_regex old) adv before after = Some st ->
      exists name,
        is_binding_name name = true /\
        after = ch "&" :: name ++ ch " " :: old ++ remaining st /\
        group_text 1 (captures st) = Some (ch "&" :: name ++ [ch " "])) /\
  format_file p [(JString old, JString new)] w
  = (written_back p content' [] w, Ret tt) /\
  (forall i name arg,
      is_binding_name name = true -> word_token arg = true -> arg <> old ->
      lines !! i = Some (ch "&" :: name ++ ch " " :: arg ++ ch " " :: old) ->
      lines' !! i = Some (ch "&" :: name ++ ch " " :: arg ++ ch " " :: old)).
Proof.
  intros Hdry Ho Hn Hf Hd lines lines' He. split; [|split].
  - intros adv before after st H.
    apply (keycode_match_word old) in H as (name & Hname & Ha & _ & Hg);
      [|assumption].
    exists name. repeat split; try assumption. now rewrite Hg.
  - now apply (format_file_one p old new w content text).
  - intros i name arg Hname Harg Hne. apply lookup_line_pass.
    now apply line_pass_later_argument.
Qed.

(** ** What the rewriter touches *)

(** X1.  [format_file] writes once, to its own path, when it returns,
    and not at all when it raises; apart from that it only prints. *)
Theorem format_file_writes_once_or_never p subs w :
  (exists out content,
      format_file p subs w = (written_back p content out w, Ret tt)) \/
  (exists out r,
      format_file p subs w = (emit out w, r) /\ r <> Ret tt).
Proof.
  destruct (format_file p subs w) as [w' r] eqn:H.
  apply format_file_result in H
    as [(out & content & -> & ->)|(out & -> & Hr)].
  - left. now exists out, content.
  - right. now exists out, r.
Qed.

Lemma touches_only_emit targets out w : touches_only targets w (emit out w).
Proof.
  repeat split. exists []. split; [now rewrite app_nil_r | constructor].
Qed.

Lemma touches_only_written_back targets p content out w :
  path_str p ∈ targets ->
  touches_only targets w (written_back p content out w).
Proof.
  intros Hp. split; [reflexivity|]. split.
  - intros q Hq. cbn [written_back files]. apply lookup_insert_ne.
    intros <-. contradiction.
  - exists [(path_str p, content)]. split; [reflexivity|].
    constructor; [assumption | constructor].
Qed.

Lemma touches_only_trans targets w1 w2 w3 :
  touches_only targets w1 w2 -> touches_only targets w2 w3 ->
  touches_only targets w1 w3.
Proof.
  intros (D1 & F1 & m1 & W1 & A1) (D2 & F2 & m2 & W2 & A2).
  split; [congruence|]. split.
  - intros q Hq. now rewrite F2, F1.
  - exists (m1 ++ m2). split.
    + now rewrite W2, W1, app_assoc.
    + now apply Forall_app.
Qed.

Lemma format_file_touches targets p subs w :
  path_str p ∈ targets ->
  touches_only targets w (format_file p subs w).1.
Proof.
  intros Hp. destruct (format_file p subs w) as [w' r] eqn:H.
  apply format_file_result in H as [(out & content & -> & _)|(out & -> & _)].
  - now apply touches_only_written_back.
  - apply touches_only_emit.
Qed.

Lemma format_all_cons p found subs w :
  format_all (p :: found) subs w
  = match format_file p subs (emit [sorting_out_message p] w) with
    | (w', Ret _) => format_all found subs w'
    | (w', Raise e) => (w', Raise e)
    | (w', Beyond) => (w', Beyond)
    end.
Proof. reflexivity. Qed.

Lemma format_all_touches targets subs found : forall w,
  Forall (fun p => path_str p ∈ targets) found ->
  touches_only targets w (format_all found subs w).1.
Proof.
  induction found as [|p found IH]; intros w Hall.
  - apply (touches_only_emit targets [] w).
  - inversion Hall as [|? ? Hp Hrest]; subst.
    rewrite format_all_cons.
    set (w1 := emit [sorting_out_message p] w).
    apply (touches_only_trans targets w w1); [apply touches_only_emit|].
    pose proof (format_file_touches targets p subs w1 Hp) as Hf.
    destruct (format_file p subs w1) as [w2 [[]| |]];
      cbn [fst] in Hf |- *; try assumption.
    apply (touches_only_trans targets w1 w2); [assumption|].
    now apply IH.
Qed.

(** The loader reads and never writes. *)
Lemma load_substitutions_world path w :
  (load_substitutions path w).1 = w.
Proof.
  unfold load_substitutions. unfold bind at 1. unfold read_bytes.
  destruct (files w !! path_str (Path path)); [|reflexivity].
  unfold bind at 1. unfold lift at 1.
  destruct (json_load p); reflexivity.
Qed.

(** X2.  Whatever the arguments, the table and the outcome, [main]
    leaves the directories alone, changes no file other than the keymap
    files it was pointed at (the path itself, or what the glob yields
    for a directory), and writes nowhere else; so a file that is not
    among these, the substitution file as any other, stays as it
    is. *)
Theorem main_touches_only_keymaps w :
  touches_only (keymap_targets w) w (main w).1.
Proof.
  unfold main. unfold bind at 1. unfold is_file at 1.
  destruct (negb _); [apply touches_only_emit|].
  destruct (negb _); [apply touches_only_emit|].
  unfold bind at 1.
  pose proof (load_substitutions_world (substitution_file ARGS) w) as Hw.
  destruct (load_substitutions (substitution_file ARGS) w) as [w0 r].
  cbn [fst] in Hw. subst w0.
  destruct r as [subs| |]; [|apply (touches_only_emit _ [] w)..].
  unfold bind at 1. unfold is_dir. unfold keymap_targets.
  destruct (dirs w !! path_str (Path (keymap_path ARGS))) as [listing|] eqn:Hd.
  - rewrite bool_decide_eq_true_2 by eauto.
    unfold bind at 1. unfold glob_keymap. rewrite Hd. cbn [default].
    apply format_all_touches.
    apply Forall_forall. intros p Hp.
    apply list_elem_of_fmap in Hp as (found & -> & Hfound).
    apply list_elem_of_fmap. eauto.
  - rewrite bool_decide_eq_false_2 by (intros [? ?]; discriminate).
    unfold bind at 1. unfold is_file.
    destruct (_ && _); [|apply touches_only_emit].
    apply format_file_touches. apply list_elem_of_singleton. reflexivity.
Qed.

(** ** Dry runs and failures of [main] *)

Lemma format_file_dry_files p subs w :
  dry_run ARGS = true -> files (format_file p subs w).1 = files w.
Proof.
  intros Hdry. unfold format_file.
  unfold bind at 1. unfold read_bytes.
  destruct (files w !! path_str p) as [content|] eqn:Hf; [|reflexivity].
  unfold bind at 1. unfold decode, lift at 1.
  destruct (utf8_decode content) as [text|] eqn:Hd; [|reflexivity].
  unfold bind at 1.
  destruct (substitute p subs (str_split newline text) w) as [w' r] eqn:Hs.
  destruct (substitute_dry_frame p subs _ w w' r Hdry Hs)
    as (Hfiles & _ & Hlines).
  destruct r as [lines'| |]; cbn [fst snd]; try assumption.
  rewrite (Hlines lines' eq_refl).
  unfold bind at 1. unfold encode, lift.
  rewrite (encode_decoded content text Hd).
  cbn [write_bytes fst files]. rewrite Hfiles. now apply insert_id.
Qed.

Lemma format_all_dry_files subs found : forall w,
  dry_run ARGS = true -> files (format_all found subs w).1 = files w.
Proof.
  induction found as [|p found IH]; intros w Hdry; [reflexivity|].
  rewrite format_all_cons.
  pose proof (format_file_dry_files p subs
                (emit [sorting_out_message p] w) Hdry) as Hf.
  destruct (format_file p subs (emit [sorting_out_message p] w))
    as [w2 [[]| |]]; cbn [fst] in Hf |- *; try assumption.
  now rewrite IH.
Qed.

(** X3.  With the dry-run flag [main] changes no file, whatever else
    the arguments, the table and the files are, in a directory as for a
    single file. *)
Theorem main_dry_run_changes_no_file w :
  dry_run ARGS = true -> files (main w).1 = files w.
Proof.
  intros Hdry. unfold main. unfold bind at 1. unfold is_file at 1.
  destruct (negb _); [reflexivity|].
  destruct (negb _); [reflexivity|].
  unfold bind at 1.
  pose proof (load_substitutions_world (substitution_file ARGS) w) as Hw.
  destruct (load_substitutions (substitution_file ARGS) w) as [w0 r].
  cbn [fst] in Hw. subst w0.
  destruct r as [subs| |]; [|reflexivity..].
  unfold bind at 1. unfold is_dir.
  destruct (bool_decide _).
  - unfold bind at 1. unfold glob_keymap.
    now apply format_all_dry_files.
  - unfold bind at 1. unfold is_file.
    destruct (_ && _); [|reflexivity].
    now apply format_file_dry_files.
Qed.

Lemma format_all_app subs done : forall rest w,
  format_all (done ++ rest) subs w
  = match format_all done subs w with
    | (w', Ret _) => format_all rest subs w'
    | (w', Raise e) => (w', Raise e)
    | (w', Beyond) => (w', Beyond)
    end.
Proof.
  induction done as [|p done IH]; intros rest w; [reflexivity|].
  cbn [app]. rewrite !format_all_cons.
  destruct (format_file p subs (emit [sorting_out_message p] w))
    as [w2 [[]| |]]; [apply IH | reflexivity..].
Qed.

(** X4.  There is no isolation between the files of a directory: when
    [format_file] raises on one of them, the walk ends with that
    exception; the files formatted before stay as written and the files
    after it are never read. *)
Theorem failing_file_ends_the_walk done p rest subs w w1 w2 r :
  format_all done subs w = (w1, Ret tt) ->
  format_file p subs (emit [sorting_out_message p] w1) = (w2, r) ->
  r <> Ret tt ->
  format_all (done ++ p :: rest) subs w = (w2, r) /\
  files w2 = files w1 /\ written w2 = written w1.
Proof.
  intros Hdone Hp Hr. split.
  - rewrite format_all_app, Hdone, format_all_cons, Hp.
    destruct r as [[]| |]; [contradiction | reflexivity..].
  - apply format_file_result in Hp
      as [(out & content & _ & ->)|(out & -> & _)]; [contradiction|].
    now split.
Qed.

(** X5.  A keymap file that is not there, or whose bytes are not
    UTF-8, makes [format_file] raise before it prints or writes
    anything. *)
Theorem unreadable_keymap_raises p subs w e :
  (files w !! path_str p = None /\ e = OSError) \/
  (exists content,
      files w !! path_str p = Some content /\
      utf8_decode content = None /\ e = UnicodeDecodeError) ->
  format_file p subs w = (w, Raise e).
Proof.
  intros [[Hf ->]|(content & Hf & Hd & ->)]; unfold format_file;
    unfold bind at 1; unfold read_bytes; rewrite Hf; [reflexivity|].
  unfold bind at 1. unfold decode. now rewrite Hd.
Qed.

(** X6.  When the substitutions are loaded and the keymap path is
    neither a directory nor a regular file with the keymap extension,
    [main] prints one line that names the path and returns; nothing is
    read or written after that. *)
Theorem not_a_keymap_path_aborts w subs :
  is_Some (files w !! path_str (Path (substitution_file ARGS))) ->
  suffix (Path (substitution_file ARGS)) = py ".json" ->
  load_substitutions (substitution_file ARGS) w = (w, Ret subs) ->
  dirs w !! path_str (Path (keymap_path ARGS)) = None ->
  files w !! path_str (Path (keymap_path ARGS)) = None \/
  suffix (Path (keymap_path ARGS)) <> py ".keymap" ->
  main w
  = (emit [keymap_path ARGS
             ++ py " doesn't point to a folder or a keymap file!"
             ++ py " Aborting..."] w, Ret tt).
Proof.
  intros Hs Hj Hl Hd Hk. unfold main. unfold bind at 1. unfold is_file at 1.
  rewrite bool_decide_eq_true_2 by assumption. cbn [negb].
  rewrite bool_decide_eq_true_2 by assumption. cbn [negb].
  unfold bind at 1. rewrite Hl.
  unfold bind at 1. unfold is_dir. rewrite Hd.
  rewrite bool_decide_eq_false_2 by (intros [? ?]; discriminate).
  unfold bind at 1. unfold is_file.
  destruct Hk as [Hk|Hk].
  - rewrite Hk.
    rewrite bool_decide_eq_false_2 by (intros [? ?]; discriminate).
    reflexivity.
  - rewrite (bool_decide_eq_false_2 _ Hk). rewrite andb_false_r.
    reflexivity.
Qed.

Lemma pairs_of_table elements (table : list substitution) :
  Forall2 (fun element s =>
             exists members,
               element = JObject members /\
               dict_get members (py "from") = Some (to_json s).1 /\
               dict_get members (py "to") = Some (to_json s).2)
          elements table ->
  pairs_of elements = Ret (to_json <$> table).
Proof.
  induction 1 as [|e s es ss (members & -> & Hfrom & Hto) _ IH];
    [reflexivity|].
  cbn [pairs_of getitem]. rewrite Hfrom, Hto. cbn [obind].
  rewrite IH. reflexivity.
Qed.

(** X7.  From the command line to the file: with a JSON substitution
    file that holds a table of plain keycodes, and a keymap path that
    is a regular file with the keymap extension, a run of [main] that
    writes leaves in that file the lines after the passes of the table,
    prints the report of [format_file] and nothing else, and touches
    nothing else. *)
Theorem main_rewrites_the_keymap_file w table elements json_bytes
    content text content' :
  dry_run ARGS = false ->
  files w !! path_str (Path (substitution_file ARGS)) = Some json_bytes ->
  suffix (Path (substitution_file ARGS)) = py ".json" ->
  json_load json_bytes = Ret (JArray elements) ->
  Forall2 (fun element s =>
             exists members,
               element = JObject members /\
               dict_get members (py "from") = Some (to_json s).1 /\
               dict_get members (py "to") = Some (to_json s).2)
          elements table ->
  Forall (fun s => plain s = true) table ->
  dirs w !! path_str (Path (keymap_path ARGS)) = None ->
  files w !! path_str (Path (keymap_path ARGS)) = Some content ->
  suffix (Path (keymap_path ARGS)) = py ".keymap" ->
  utf8_decode content = Some text ->
  utf8_encode (str_join newline (passes table (str_split newline text)))
  = Some content' ->
  main w
  = (written_back (Path (keymap_path ARGS)) content'
       (run_report (path_str (Path (keymap_path ARGS))) table
                   (str_split newline text)) w, Ret tt).
Proof.
  intros Hdry Hs Hj Hload Hel Hplain Hd Hk Hsuf Hdec Henc.
  unfold main. unfold bind at 1. unfold is_file at 1.
  rewrite bool_decide_eq_true_2 by eauto. cbn [negb].
  rewrite bool_decide_eq_true_2 by assumption. cbn [negb].
  unfold bind at 1. unfold load_substitutions.
  unfold bind at 1. unfold read_bytes. rewrite Hs.
  unfold bind at 1. rewrite Hload.
  cbn [lift substitutions_of py_iter obind].
  rewrite (pairs_of_table elements table Hel).
  unfold bind at 1. unfold is_dir. rewrite Hd.
  rewrite bool_decide_eq_false_2 by (intros [? ?]; discriminate).
  unfold bind at 1. unfold is_file. rewrite Hk.
  rewrite bool_decide_eq_true_2 by eauto.
  rewrite bool_decide_eq_true_2 by assumption. cbn [andb].
  eapply format_file_eq; eauto. now apply substitute_run.
Qed.

(** ** Errors of the loader *)

(** X8.  An element without [from] makes the loader raise [KeyError]
    for [from], with or without a [to] in that element and whatever
    comes after it; no table is returned. *)
Theorem missing_from_raises_KeyError path w content before members after :
  files w !! path_str (Path path) = Some content ->
  json_load content = Ret (JArray (before ++ JObject members :: after)) ->
  Forall complete_element before ->
  dict_get members (py "from") = None ->
  load_substitutions path w = (w, Raise (KeyError (py "from"))).
Proof.
  intros Hf Hj Hbefore Hfrom.
  rewrite (load_substitutions_array path w content _ Hf Hj). f_equal.
  destruct (pairs_of_complete before (JObject members :: after) Hbefore)
    as [head ->].
  cbn [pairs_of getitem]. now rewrite Hfrom.
Qed.

(** X9.  An element of the array that is not an object (a string, a
    number, a nested array, null) makes the loader raise [TypeError]. *)
Theorem element_not_an_object_raises_TypeError path w content
    before element after :
  files w !! path_str (Path path) = Some content ->
  json_load content = Ret (JArray (before ++ element :: after)) ->
  Forall complete_element before ->
  is_object element = false ->
  load_substitutions path w = (w, Raise TypeError).
Proof.
  intros Hf Hj Hbefore Hobj.
  rewrite (load_substitutions_array path w content _ Hf Hj). f_equal.
  destruct (pairs_of_complete before (element :: after) Hbefore)
    as [head ->].
  cbn [pairs_of]. now destruct element.
Qed.

(** X10.  A substitution file whose top-level value is not an array (a
    scalar, or an object or a string that is not empty) makes the
    loader raise [TypeError]: the loop then runs over keys or
    characters, which cannot be subscripted by a name. *)
Theorem top_level_not_an_array_raises_TypeError path w content v :
  files w !! path_str (Path path) = Some content ->
  json_load content = Ret v ->
  not_a_table v = true ->
  load_substitutions path w = (w, Raise TypeError).
Proof.
  intros Hf Hj Hv. unfold load_substitutions.
  unfold bind at 1. unfold read_bytes. rewrite Hf.
  unfold bind at 1. rewrite Hj. cbn [lift]. f_equal.
  unfold substitutions_of.
  destruct v as [|b|n|s|es|members]; try reflexivity; try discriminate.
  - destruct s; [discriminate | reflexivity].
  - destruct members as [|[k v] members]; [discriminate|].
    cbn [py_iter obind].
    destruct (rev (remove_dups (rev ((k, v) :: members).*1))) as [|k0 ks] eqn:E.
    + exfalso. apply (f_equal (@rev pystr)) in E.
      rewrite rev_involutive in E. cbn [rev] in E.
      assert (k ∈ remove_dups (rev ((k, v) :: members).*1)) as Hin.
      { apply elem_of_remove_dups, list_elem_of_In, in_rev.
        rewrite rev_involutive. now left. }
      rewrite E in Hin. now apply not_elem_of_nil in Hin.
    + reflexivity.
Qed.

(** ** Lines the pattern does not select *)

Lemma lines_to_update_from_elem p lines : forall k i,
  i ∈ (filter (fun il => re_search p il.2) (enumerate k lines)).*1 ->
  (k <= i)%nat /\
  exists line, lines !! (i - k)%nat = Some line /\ re_search p line = true.
Proof.
  induction lines as [|l lines IH]; intros k i Hi.
  - cbn in Hi. now apply not_elem_of_nil in Hi.
  - cbn [enumerate] in Hi. rewrite filter_cons in Hi. cbn [snd] in Hi.
    assert (Hrest :
      i ∈ (filter (fun il => re_search p il.2) (enumerate (S k) lines)).*1 ->
      (k <= i)%nat /\
      exists line, (l :: lines) !! (i - k)%nat = Some line
                   /\ re_search p line = true).
    { intros H. apply IH in H as (Hk & line & Hl & Hs).
      split; [lia|]. exists line. split; [|assumption].
      replace (i - k)%nat with (S (i - S k)) by lia. exact Hl. }
    destruct (decide (re_search p l)) as [Hs|Hs]; [|now apply Hrest].
    cbn [fmap list_fmap fst] in Hi. apply elem_of_cons in Hi as [->|Hi];
      [|now apply Hrest].
    split; [lia|]. exists l. rewrite Nat.sub_diag. split; [reflexivity|].
    now apply Is_true_true.
Qed.

(** A listed index is the index of a line the pattern is found in. *)
Lemma lines_to_update_elem p lines i :
  i ∈ lines_to_update p lines ->
  exists line, lines !! i = Some line /\ re_search p line = true.
Proof.
  intros H. apply lines_to_update_from_elem in H as (_ & line & Hl & Hs).
  rewrite Nat.sub_0_r in Hl. eauto.
Qed.

Lemma not_selected p (lines : list pystr) (i : nat) line :
  lines !! i = Some line -> re_search p line = false ->
  i ∉ lines_to_update p lines.
Proof.
  intros Hl Hs Hi. apply lines_to_update_elem in Hi as (line' & Hl' & Hs').
  congruence.
Qed.

Lemma search_word_suffix old name more :
  word_token old = true -> is_binding_name name = true ->
  word_token more = true ->
  re_search (keycode_regex old)
            (ch "&" :: name ++ ch " " :: more ++ old) = false.
Proof.
  intros Ho Hn Hm. unfold re_search.
  apply bool_decide_eq_false. intros [st H].
  cbn [search_from] in H.
  destruct (match_here _ _ _ _) as [st'|] eqn:E.
  - apply (keycode_match_word old) in E as (name' & Hn' & Ha & W & _);
      [|assumption].
    injection Ha as Ha.
    apply word_run_unique in Ha as (-> & _ & Ha);
      auto using binding_name_word.
    destruct (remaining st') as [|c rem] eqn:R.
    + apply (f_equal length) in Ha. rewrite app_nil_r, length_app in Ha.
      destruct more; [discriminate|]. simpl in Ha. lia.
    + cbn [word_at] in W.
      assert (c ∈ more ++ old) as Hc by (rewrite Ha; set_solver).
      apply list_elem_of_In in Hc.
      assert (forallb is_word (more ++ old) = true) as Hw
        by (rewrite forallb_app; now rewrite !word_token_forallb).
      rewrite forallb_forall in Hw. apply Hw in Hc. congruence.
  - rewrite search_no_amp in H; [discriminate|].
    apply not_elem_of_app. split; [now apply word_not_amp, binding_name_word|].
    apply not_elem_of_cons. split; [discriminate|].
    apply not_elem_of_app.
    split; now apply word_not_amp, word_token_forallb.
Qed.

(** X11.  The case the comment in the source gives ([VOLU] inside
    [M_VOLU]): a line whose first argument ends in the old keycode but
    is a longer word is not listed for update. *)
Theorem keycode_ending_a_longer_word_is_not_selected old name more
    (lines : list pystr) (i : nat) :
  word_token old = true -> is_binding_name name = true ->
  word_token more = true ->
  lines !! i = Some (ch "&" :: name ++ ch " " :: more ++ old) ->
  compile (old_keycode_pattern old) = Ret (keycode_regex old) /\
  i ∉ lines_to_update (keycode_regex old) lines.
Proof.
  intros Ho Hn Hm Hl. split.
  - now apply compile_literal, word_token_literal.
  - eapply not_selected; [exact Hl|]. now apply search_word_suffix.
Qed.

Lemma search_other_name old name rest :
  forallb is_word name = true -> is_binding_name name = false ->
  ch "&" ∉ rest ->
  re_search (keycode_regex old) (ch "&" :: name ++ ch " " :: rest) = false.
Proof.
  intros Hw Hn Hrest. unfold re_search.
  apply bool_decide_eq_false. intros [st H].
  cbn [search_from] in H.
  destruct (match_here _ _ _ _) as [st'|] eqn:E.
  - apply keycode_match_shape in E
      as (name' & prefix & Hn' & _ & Ha & _).
    cbv zeta in Ha. injection Ha as Ha. rewrite <- app_assoc in Ha.
    cbn [app] in Ha. symmetry in Ha.
    apply word_run_unique in Ha as (-> & _ & _);
      auto using binding_name_word.
    congruence.
  - rewrite search_no_amp in H; [discriminate|].
    apply not_elem_of_app. split; [now apply word_not_amp|].
    apply not_elem_of_cons. split; [discriminate | assumption].
Qed.

(** X12.  Only bindings named by two word characters, [inc_dec_kp] or
    [inc_dec_cp] are looked at: a line with a binding of any other name
    ([&tog OLD], [&trans], [&rgb_ug OLD]) is not listed for update,
    whatever the old keycode. *)
Theorem other_binding_names_are_not_selected old name rest
    (lines : list pystr) (i : nat) :
  literal old = true ->
  forallb is_word name = true -> is_binding_name name = false ->
  ch "&" ∉ rest ->
  lines !! i = Some (ch "&" :: name ++ ch " " :: rest) ->
  compile (old_keycode_pattern old) = Ret (keycode_regex old) /\
  i ∉ lines_to_update (keycode_regex old) lines.
Proof.
  intros Ho Hw Hn Hrest Hl. split; [now apply compile_literal|].
  eapply not_selected; [exact Hl|]. now apply search_other_name.
Qed.

(** X13.  For an old keycode that is one word and a new keycode the
    template takes as it is (no backslash, no digit in front), what
    stands around a binding on its line is kept as it is: indentation
    and text before the mark, and after the keycode whatever does not
    go on the word, such as brackets, a comment or the carriage return
    of a line that ended in CR LF. *)
Theorem text_around_a_binding_is_kept old new name pre post :
  word_token old = true -> template_safe new = true ->
  is_binding_name name = true ->
  ch "&" ∉ pre -> ch "&" ∉ post -> word_at post = false ->
  compile (old_keycode_pattern old) = Ret (keycode_regex old) /\
  re_search (keycode_regex old)
            (pre ++ ch "&" :: name ++ ch " " :: old ++ post) = true /\
  re_sub (keycode_regex old) (replacement_keycode new)
         (pre ++ ch "&" :: name ++ ch " " :: old ++ post)
  = Ret (pre ++ ch "&" :: name ++ ch " " :: new ++ post).
Proof.
  intros Ho Hnew Hn Hpre Hpost Wp.
  destruct (sub_single old new name pre post Ho Hn Hpre Hpost Wp)
    as [Hs Hsub].
  split; [now apply compile_literal, word_token_literal|].
  split; [assumption|].
  unfold re_sub. change (groups (keycode_regex old)) with 2%nat.
  rewrite (parse_replacement new Hnew). cbn [obind].
  fold (replacement_items new). now rewrite Hsub.
Qed.

(** ** A new keycode that begins with a digit *)

Lemma parse_replacement_digit d rest :
  is_digit d = true ->
  is_octal d && match rest with
                | d2 :: _ => is_octal d2
                | [] => false
                end = false ->
  parse_template 2 (replacement_keycode (d :: rest)) = Raise re_error.
Proof.
  intros Hd Hoct. unfold replacement_keycode.
  change (py "\1" ++ d :: rest) with (92 :: 49 :: d :: rest).
  cbn [parse_template]. change (negb (92 =? ch "\")) with false.
  cbn iota. change (49 =? ch "g") with false. change (49 =? ch "0") with false.
  change (is_digit 49) with true. cbn iota. rewrite Hd.
  assert (add_group 2 (digit_val 49 * 10 + digit_val d)
                    (parse_template 2 rest) = Raise re_error) as Hg.
  { unfold add_group.
    destruct (Nat.ltb_spec 2 (digit_val 49 * 10 + digit_val d));
      [reflexivity|].
    change (digit_val 49) with 1%nat in *. lia. }
  destruct rest as [|d2 t4]; [exact Hg|].
  change (is_octal 49) with true. cbn [andb] in Hoct |- *.
  rewrite Hoct. exact Hg.
Qed.

(** X14.  The new keycode is pasted into the template behind [\1]
    without escaping, so one that begins with a digit reads as a
    two-digit group number: once the old keycode is found in the file,
    the run raises the error of [re] and the file is neither written
    nor changed.  (Had the digit and the one after it been octal
    digits, the three would read as a character code instead.) *)
Theorem digit_led_new_keycode_raises p old d rest w content text :
  dry_run ARGS = false ->
  literal old = true ->
  is_digit d = true ->
  is_octal d && match rest with
                | d2 :: _ => is_octal d2
                | [] => false
                end = false ->
  files w !! path_str p = Some content ->
  utf8_decode content = Some text ->
  hits old (str_split newline text) <> 0%nat ->
  format_file p [(JString old, JString (d :: rest))] w = (w, Raise re_error).
Proof.
  intros Hdry Ho Hd Hoct Hf Hdec Hhits. unfold format_file.
  unfold bind at 1. unfold read_bytes. rewrite Hf.
  unfold bind at 1. unfold decode. rewrite Hdec. cbn [lift].
  unfold bind at 1. cbn [substitute].
  unfold bind at 1. cbn [lift format_value].
  unfold bind at 1. rewrite (compile_literal old Ho). cbn [lift].
  rewrite <- lines_to_update_hits in Hhits.
  destruct (lines_to_update (keycode_regex old) (str_split newline text))
    as [|i is_] eqn:E; [contradiction|].
  unfold bind at 1. cbn [lift format_value]. rewrite Hdry.
  unfold bind at 1.
  assert (i ∈ lines_to_update (keycode_regex old) (str_split newline text))
    as Hi by (rewrite E; now left).
  apply lines_to_update_elem in Hi as (line & Hl & _).
  cbn [update_lines]. rewrite Hl. unfold re_sub. change (groups (keycode_regex old)) with 2%nat.
  rewrite (parse_replacement_digit d rest Hd Hoct). reflexivity.
Qed.

(** ** The pattern as a scanner *)

Lemma take_word_spec s :
  s = (take_word s).1 ++ (take_word s).2 /\
  forallb is_word (take_word s).1 = true /\
  word_at (take_word s).2 = false.
Proof.
  induction s as [|c s (IH1 & IH2 & IH3)]; [now cbn|].
  cbn [take_word]. destruct (is_word c) eqn:W; cbn [fst snd].
  - repeat split; [cbn [app]; now f_equal | cbn; now rewrite W | assumption].
  - repeat split. cbn. exact W.
Qed.

Lemma take_word_run name : forall c r,
  forallb is_word name = true -> is_word c = false ->
  take_word (name ++ c :: r) = (name, c :: r).
Proof.
  induction name as [|a name IH]; intros c r Hn Hc.
  - cbn. now rewrite Hc.
  - cbn in Hn. apply andb_prop in Hn as [Ha Hn].
    cbn [app take_word]. rewrite Ha, (IH c r Hn Hc). reflexivity.
Qed.

Lemma binding_at_intro old name post :
  is_binding_name name = true -> word_at post = false ->
  binding_at old (ch "&" :: name ++ ch " " :: old ++ post)
  = Some (name, post).
Proof.
  intros Hn Hp. unfold binding_at. rewrite N.eqb_refl.
  rewrite take_word_run by (auto using binding_name_word, is_word_space).
  cbn [fst snd]. rewrite Hn, N.eqb_refl.
  rewrite take_app_length, drop_app_length.
  rewrite bool_decide_eq_true_2 by reflexivity. now rewrite Hp.
Qed.

Lemma binding_at_elim old s name post :
  binding_at old s = Some (name, post) ->
  is_binding_name name = true /\ word_at post = false /\
  s = ch "&" :: name ++ ch " " :: old ++ post.
Proof.
  unfold binding_at. destruct s as [|c t]; [discriminate|].
  destruct (N.eqb_spec c (ch "&")) as [->|]; [|discriminate].
  destruct (take_word_spec t) as (Ht & _ & _).
  destruct (take_word t).2 as [|sp r]; [discriminate|].
  destruct (is_binding_name (take_word t).1) eqn:Hn; [|discriminate].
  destruct (N.eqb_spec sp (ch " ")) as [->|]; [|discriminate].
  destruct (bool_decide (take (length old) r = old)) eqn:Hold;
    [|discriminate].
  destruct (word_at (drop (length old) r)) eqn:Hw; [discriminate|].
  cbn [andb negb]. intros [= <- <-].
  apply bool_decide_eq_true in Hold.
  repeat split; try assumption.
  rewrite Ht at 1. do 3 f_equal.
  transitivity (take (length old) r ++ drop (length old) r);
    [symmetry; apply take_drop | now rewrite Hold].
Qed.

(** A match of the pattern is a binding in the sense of [binding_at],
    and the other way round. *)
Lemma match_here_binding old adv before s st :
  word_token old = true ->
  match_here (keycode_regex old) adv before s = Some st ->
  exists name, binding_at old s = Some (name, remaining st).
Proof.
  intros Ho H. apply (keycode_match_word old) in H
    as (name & Hn & -> & W & _); [|assumption].
  exists name. now apply binding_at_intro.
Qed.

Lemma match_here_none old before s :
  word_token old = true -> binding_at old s = None ->
  match_here (keycode_regex old) false before s = None.
Proof.
  intros Ho Hb. destruct (match_here _ _ _ _) as [st|] eqn:E; [|reflexivity].
  apply (match_here_binding old) in E as [name E]; [|assumption].
  congruence.
Qed.

Lemma sub_from_scan old new s : forall skip before,
  word_token old = true ->
  sub_from (keycode_regex old) (replacement_items new) skip before s
  = scan_line old new skip s.
Proof.
  induction s as [|c t IH]; intros skip before Ho.
  - destruct skip; reflexivity.
  - destruct skip as [|n]; [|cbn [sub_from scan_line app]; now apply IH].
    cbn [scan_line].
    destruct (binding_at old (c :: t)) as [[name post]|] eqn:Hb.
    + apply binding_at_elim in Hb as (Hn & Hp & Hs).
      cbn [sub_from]. rewrite Hs.
      rewrite (keycode_match_here old name post before Ho Hn Hp).
      rewrite (expand_replacement new _ (ch "&" :: name ++ [ch " "]) name)
        by reflexivity.
      cbn [remaining].
      replace (length (ch "&" :: name ++ ch " " :: old ++ post)
               - length post)%nat
        with (S (length name + 1 + length old))
        by (cbn [length]; rewrite !length_app; cbn [length];
            rewrite !length_app; lia).
      injection Hs as -> ->. cbn [app].
      rewrite (IH _ (ch "&" :: before) Ho).
      now list_norm.
    + cbn [sub_from]. rewrite (match_here_none old before _ Ho Hb).
      cbn [app]. f_equal. now apply IH.
Qed.

Lemma search_from_has_binding old s : forall before,
  word_token old = true ->
  bool_decide (is_Some (search_from (keycode_regex old) before s))
  = has_binding old s.
Proof.
  induction s as [|c t IH]; intros before Ho.
  - cbn [search_from has_binding binding_at].
    rewrite match_here_amp by discriminate.
    now apply bool_decide_eq_false_2; intros [? ?].
  - cbn [search_from has_binding].
    destruct (binding_at old (c :: t)) as [[name post]|] eqn:Hb.
    + apply binding_at_elim in Hb as (Hn & Hp & ->).
      rewrite (keycode_match_here old name post before Ho Hn Hp).
      apply bool_decide_eq_true_2. eauto.
    + rewrite (match_here_none old before _ Ho Hb). now apply IH.
Qed.

(** X15.  For an old keycode that is one word, the regular expression
    does what a plain scanner does, which goes through the line once
    and looks for the places where the mark, a binding name, one space
    and the keycode as a whole word stand: [search] finds a line
    exactly when it has such a place; and for a new keycode the
    template takes as it is (no backslash, no digit in front) [sub]
    gives exactly the scanned line, in which the keycode is swapped at
    every such place, all bindings of a row included. *)
Theorem pattern_is_a_scanner old line :
  word_token old = true ->
  compile (old_keycode_pattern old) = Ret (keycode_regex old) /\
  re_search (keycode_regex old) line = has_binding old line /\
  forall new,
    template_safe new = true ->
    re_sub (keycode_regex old) (replacement_keycode new) line
    = Ret (scan_line old new 0 line).
Proof.
  intros Ho.
  split; [now apply compile_literal, word_token_literal|].
  split; [now apply search_from_has_binding|].
  intros new Hn. unfold re_sub. change (groups (keycode_regex old)) with 2%nat.
  rewrite (parse_replacement new Hn). cbn [obind].
  fold (replacement_items new). now rewrite sub_from_scan.
Qed.

(** ** What is written can be read again *)

Lemma to_N_byte_of_N n : n < 256 -> Byte.to_N (byte_of_N n) = n.
Proof.
  intros H. unfold byte_of_N. destruct (Byte.of_N n) as [b|] eqn:E.
  - now apply Byte.to_of_N in E.
  - apply Byte.of_N_None_iff in E. lia.
Qed.

Lemma continuation_byte n :
  n < 64 -> continuation (byte_of_N (128 + n)) = Some n.
Proof.
  intros H. unfold continuation. rewrite to_N_byte_of_N by lia.
  destruct (N.leb_spec 128 (128 + n)); [|lia].
  destruct (N.ltb_spec (128 + n) 192); [|lia].
  cbn [andb]. f_equal. lia.
Qed.

(** The tests of the decoder, settled by arithmetic. *)
Ltac settle_tests :=
  repeat match goal with
         | |- context [?a <? ?b] =>
           first [rewrite (proj2 (N.ltb_lt a b)) by div_lia
                 |rewrite (proj2 (N.ltb_ge a b)) by div_lia]
         | |- context [?a <=? ?b] =>
           first [rewrite (proj2 (N.leb_le a b)) by div_lia
                 |rewrite (proj2 (N.leb_gt a b)) by div_lia]
         end.

Lemma utf8_decode_char c bs rest :
  utf8_encode_char c = Some bs ->
  utf8_decode (bs ++ rest) = cons c <$> utf8_decode rest.
Proof.
  clear unicode_isalnum json_load.
  unfold utf8_encode_char.
  destruct (N.ltb_spec c 128) as [H1|H1].
  { intros [= <-]. cbn [app utf8_decode].
    rewrite to_N_byte_of_N by lia. now settle_tests. }
  destruct (N.ltb_spec c 2048) as [H2|H2].
  { intros [= <-]. cbn [app utf8_decode].
    rewrite to_N_byte_of_N by div_lia.
    rewrite (continuation_byte (c mod 64)) by div_lia.
    replace ((192 + c / 64 - 192) * 64 + c mod 64) with c by div_lia.
    now settle_tests. }
  destruct (N.ltb_spec c 65536) as [H3|H3].
  { destruct ((55296 <=? c) && (c <=? 57343)) eqn:Hs; [discriminate|].
    intros [= <-]. cbn [app utf8_decode].
    rewrite to_N_byte_of_N by div_lia.
    rewrite (continuation_byte ((c / 64) mod 64)) by div_lia.
    rewrite (continuation_byte (c mod 64)) by div_lia.
    replace ((224 + c / 4096 - 224) * 4096 + (c / 64) mod 64 * 64 + c mod 64)
      with c by div_lia.
    rewrite Hs. now settle_tests. }
  destruct (N.leb_spec c 1114111) as [H4|H4]; [|discriminate].
  intros [= <-]. cbn [app utf8_decode].
  rewrite to_N_byte_of_N by div_lia.
  rewrite (continuation_byte ((c / 4096) mod 64)) by div_lia.
  rewrite (continuation_byte ((c / 64) mod 64)) by div_lia.
  rewrite (continuation_byte (c mod 64)) by div_lia.
  replace ((240 + c / 262144 - 240) * 262144 + (c / 4096) mod 64 * 4096
           + (c / 64) mod 64 * 64 + c mod 64)
    with c by div_lia.
  now settle_tests.
Qed.

(** Strict decoding undoes encoding. *)
Lemma utf8_decode_encode s : forall bs,
  utf8_encode s = Some bs -> utf8_decode bs = Some s.
Proof.
  induction s as [|c s IH]; intros bs H.
  - now injection H as <-.
  - cbn [utf8_encode] in H.
    destruct (utf8_encode_char c) as [bc|] eqn:Hc; [|discriminate].
    destruct (utf8_encode s) as [rest|]; [|discriminate].
    injection H as <-.
    rewrite (utf8_decode_char c bc rest Hc), (IH rest eq_refl). reflexivity.
Qed.

Lemma format_file_returns p subs w w' :
  format_file p subs w = (w', Ret tt) ->
  exists out lines' content',
    utf8_encode (str_join newline lines') = Some content' /\
    w' = written_back p content' out w.
Proof.
  unfold format_file. unfold bind at 1. unfold read_bytes.
  destruct (files w !! path_str p) as [content|]; [|discriminate].
  unfold bind at 1. unfold decode, lift at 1.
  destruct (utf8_decode content) as [text|]; [|discriminate].
  unfold bind at 1.
  destruct (substitute p subs (str_split newline text) w) as [w1 r1] eqn:Hs.
  apply substitute_frame in Hs as [out ->].
  destruct r1 as [lines'| |]; [|discriminate..].
  unfold bind at 1. unfold encode, lift.
  destruct (utf8_encode (str_join newline lines')) as [content'|] eqn:He;
    [|discriminate].
  intros [= <-]. now exists out, lines', content'.
Qed.

(** X16.  Whenever [format_file] returns, the file it leaves is valid
    UTF-8 again, whatever the table put into the lines: it decodes to
    the joined lines that were written, so a later run can read it. *)
Theorem written_file_decodes_again p subs w w' :
  format_file p subs w = (w', Ret tt) ->
  exists lines' content',
    files w' !! path_str p = Some content' /\
    utf8_decode content' = Some (str_join newline lines').
Proof.
  intros H. apply format_file_returns in H
    as (out & lines' & content' & He & ->).
  exists lines', content'. split.
  - cbn [written_back files]. apply lookup_insert_eq.
  - now apply utf8_decode_encode.
Qed.

(** ** The walk over a directory *)

(** X17.  A walk over a directory that returns has printed, for each
    file the glob gave and in that order, the line that names the file
    and then what [format_file] printed for it, and has written each of
    these files once, in that order, changed or not. *)
Theorem directory_walk_writes_each_file_once subs found : forall w w',
  format_all found subs w = (w', Ret tt) ->
  (written w').*1 = (written w).*1 ++ (path_str <$> found) /\
  exists reports,
    length reports = length found /\
    stdout w'
    = stdout w
        ++ concat (zip_with (fun p report => sorting_out_message p :: report)
                            found reports).
Proof.
  induction found as [|p found IH]; intros w w' H.
  - injection H as <-. split; [now rewrite app_nil_r|].
    exists []. split; [reflexivity | now rewrite app_nil_r].
  - rewrite format_all_cons in H.
    destruct (format_file p subs (emit [sorting_out_message p] w))
      as [w1 r] eqn:Hp.
    apply format_file_result in Hp
      as [(out & content & -> & ->)|(out & -> & Hr)].
    + apply IH in H as (Hw & reports & Hlen & Hout). split.
      * rewrite Hw. cbn [written_back written emit fmap list_fmap].
        rewrite fmap_app. cbn [fmap list_fmap fst]. now rewrite <- app_assoc.
      * exists (out :: reports). split; [cbn; now rewrite Hlen|].
        rewrite Hout. cbn [written_back stdout emit zip_with concat].
        now rewrite <- !app_assoc.
    + destruct r as [[]| |]; [contradiction | discriminate..].
Qed.

(** ** A second run *)

Lemma scan_line_skip old new w : forall rest,
  scan_line old new (length w) (w ++ rest) = scan_line old new 0 rest.
Proof.
  induction w as [|c w IH]; intros rest; [reflexivity|].
  cbn [length app scan_line]. apply IH.
Qed.

Lemma binding_at_mark old s :
  head s <> Some (ch "&") -> binding_at old s = None.
Proof.
  destruct s as [|c t]; [reflexivity|]. cbn [head binding_at].
  destruct (N.eqb_spec c (ch "&")) as [->|]; [now intros []|reflexivity].
Qed.

Lemma head_scan_line old new s :
  head (scan_line old new 0 s) = head s.
Proof.
  destruct s as [|c t]; [reflexivity|]. cbn [scan_line].
  destruct (binding_at old (c :: t)) as [[name post]|] eqn:Hb;
    [|reflexivity].
  apply binding_at_elim in Hb as (_ & _ & Hs). now injection Hs as ->.
Qed.

Lemma word_at_head (s s' : pystr) : head s = head s' -> word_at s = word_at s'.
Proof. destruct s, s'; cbn; try discriminate; [reflexivity|]. now intros [= ->]. Qed.

Lemma has_binding_no_amp old w : forall r,
  ch "&" ∉ w -> has_binding old (w ++ r) = has_binding old r.
Proof.
  induction w as [|c w IH]; intros r Hw; [reflexivity|].
  cbn [app has_binding]. rewrite binding_at_mark.
  - apply IH. intros Hin. apply Hw. now right.
  - cbn. intros [= ->]. apply Hw. now left.
Qed.

(** Output that holds no mark was copied from the line. *)
Lemma scan_line_copied old new w : forall s o,
  ch "&" ∉ w -> scan_line old new 0 s = w ++ o ->
  exists s', s = w ++ s' /\ o = scan_line old new 0 s'.
Proof.
  induction w as [|a w IH]; intros s o Hw H; [now exists s|].
  destruct s as [|c t]; [discriminate|]. cbn [scan_line] in H.
  destruct (binding_at old (c :: t)) as [[name post]|] eqn:Hb.
  - injection H as <- _. exfalso. apply Hw. now left.
  - injection H as -> H. apply IH in H as (s' & -> & ->).
    + now exists s'.
    + intros Hin. apply Hw. now right.
Qed.

Lemma binding_parts_no_amp old name :
  word_token old = true -> is_binding_name name = true ->
  ch "&" ∉ name ++ ch " " :: old.
Proof.
  intros Ho Hn. apply not_elem_of_app.
  split; [now apply word_not_amp, binding_name_word|].
  apply not_elem_of_cons. split; [discriminate|].
  now apply word_not_amp, word_token_forallb.
Qed.

(** Where the line had no binding the scanned line has none. *)
Lemma binding_at_scanned_none old new c t :
  word_token old = true ->
  binding_at old (c :: t) = None ->
  binding_at old (c :: scan_line old new 0 t) = None.
Proof.
  intros Ho Hnone.
  destruct (binding_at old (c :: scan_line old new 0 t))
    as [[name post]|] eqn:Hb; [|reflexivity].
  exfalso. apply binding_at_elim in Hb as (Hn & Hp & Hs).
  injection Hs as -> Hs.
  replace (name ++ ch " " :: old ++ post)
    with ((name ++ ch " " :: old) ++ post) in Hs by (now list_norm).
  apply scan_line_copied in Hs as (s' & -> & ->);
    [|now apply binding_parts_no_amp].
  rewrite (word_at_head _ _ (head_scan_line old new s')) in Hp.
  rewrite <- app_assoc in Hnone. cbn [app] in Hnone.
  rewrite (binding_at_intro old name s' Hn Hp) in Hnone. discriminate.
Qed.

Lemma word_then_boundary_unique a b (r r' : pystr) :
  word_token a = true -> word_token b = true ->
  word_at r = false -> word_at r' = false ->
  a ++ r = b ++ r' -> a = b.
Proof.
  intros Ha Hb Hr Hr' E.
  apply word_token_forallb in Ha, Hb.
  assert (forall (x y : pystr) c t,
             forallb is_word x = true -> is_word c = false ->
             x = y ++ c :: t -> False) as Hno.
  { intros x y c t Hx Hc ->. rewrite forallb_app in Hx.
    apply andb_prop in Hx as [_ Hx]. cbn in Hx. now rewrite Hc in Hx. }
  destruct r as [|x r], r' as [|y r'].
  - now rewrite !app_nil_r in E.
  - rewrite app_nil_r in E. exfalso. exact (Hno a b y r' Ha Hr' E).
  - rewrite app_nil_r in E. exfalso. symmetry in E.
    exact (Hno b a x r Hb Hr E).
  - cbn in Hr, Hr'. now apply word_run_unique in E as (-> & _).
Qed.

(** Where a keycode was swapped the scanned line has no binding of the
    old keycode. *)
Lemma binding_at_swapped_none old new name rest :
  word_token old = true -> word_token new = true -> old <> new ->
  is_binding_name name = true -> word_at rest = false ->
  binding_at old (ch "&" :: name ++ ch " " :: new ++ rest) = None.
Proof.
  intros Ho Hnew Hne Hn Hr.
  destruct (binding_at old _) as [[name' post]|] eqn:Hb; [|reflexivity].
  exfalso. apply binding_at_elim in Hb as (Hn' & Hp & Hs).
  injection Hs as Hs.
  apply word_run_unique in Hs as (_ & _ & Hs);
    auto using binding_name_word, is_word_space.
  symmetry in Hs. now apply word_then_boundary_unique in Hs.
Qed.

Lemma scanned_line_has_no_binding old new s : forall skip,
  word_token old = true -> word_token new = true -> old <> new ->
  has_binding old (scan_line old new skip s) = false.
Proof.
  induction s as [|c t IH]; intros skip Ho Hnew Hne; [reflexivity|].
  destruct skip as [|n]; [|cbn [scan_line]; now apply IH].
  cbn [scan_line].
  destruct (binding_at old (c :: t)) as [[name post]|] eqn:Hb.
  - apply binding_at_elim in Hb as (Hn & Hp & Hs). injection Hs as -> ->.
    replace (name ++ ch " " :: old ++ post)
      with ((name ++ ch " " :: old) ++ post) in * by (now list_norm).
    replace (length name + 1 + length old)%nat
      with (length (name ++ ch " " :: old))
      by (rewrite length_app; cbn [length]; lia).
    pose proof (IH (length (name ++ ch " " :: old)) Ho Hnew Hne) as Hrest.
    rewrite scan_line_skip in Hrest |- *.
    cbn [has_binding].
    rewrite (binding_at_swapped_none old new name _ Ho Hnew Hne Hn).
    2:{ now rewrite (word_at_head _ _ (head_scan_line old new post)). }
    replace (name ++ ch " " :: new ++ scan_line old new 0 post)
      with ((name ++ ch " " :: new) ++ scan_line old new 0 post)
      by (now list_norm).
    rewrite has_binding_no_amp; [exact Hrest|].
    now apply binding_parts_no_amp.
  - cbn [has_binding].
    rewrite (binding_at_scanned_none old new c t Ho Hb).
    now apply IH.
Qed.

Lemma re_search_has_binding old s :
  word_token old = true ->
  re_search (keycode_regex old) s = has_binding old s.
Proof. intros Ho. now apply search_from_has_binding. Qed.

Lemma line_pass_twice old new line :
  word_token old = true -> word_token new = true -> old <> new ->
  line_pass old new (line_pass old new line) = line_pass old new line.
Proof.
  intros Ho Hnew Hne. unfold line_pass at 2 3.
  destruct (re_search (keycode_regex old) line) eqn:Hs.
  - rewrite (sub_from_scan old new line 0 [] Ho). unfold line_pass.
    rewrite (re_search_has_binding old _ Ho).
    now rewrite (scanned_line_has_no_binding old new line 0 Ho Hnew Hne).
  - unfold line_pass. now rewrite Hs.
Qed.

Lemma scan_line_elem old new x s : forall skip,
  x ∈ scan_line old new skip s -> x ∈ s \/ x ∈ new.
Proof.
  induction s as [|c t IH]; intros skip H; [now left|].
  destruct skip as [|n]; cbn [scan_line] in H.
  - destruct (binding_at old (c :: t)) as [[name post]|] eqn:Hb.
    + apply binding_at_elim in Hb as (_ & _ & Hs). injection Hs as -> ->.
      apply elem_of_cons in H as [->|H]; [left; now left|].
      apply elem_of_app in H as [H|H].
      { left. right. apply elem_of_app. now left. }
      apply elem_of_cons in H as [->|H].
      { left. right. apply elem_of_app. right. now left. }
      apply elem_of_app in H as [H|H]; [now right|].
      apply IH in H as [H|H]; [left; now right | now right].
    + apply elem_of_cons in H as [->|H]; [left; now left|].
      apply IH in H as [H|H]; [left; now right | now right].
  - apply IH in H as [H|H]; [left; now right | now right].
Qed.

Lemma line_pass_elem old new x line :
  word_token old = true ->
  x ∈ line_pass old new line -> x ∈ line \/ x ∈ new.
Proof.
  intros Ho. unfold line_pass.
  destruct (re_search (keycode_regex old) line); [|now left].
  rewrite (sub_from_scan old new line 0 [] Ho). apply scan_line_elem.
Qed.

Lemma str_split_lines sep s :
  str_split sep s <> [] /\ Forall (fun l => sep ∉ l) (str_split sep s).
Proof.
  induction s as [|c t [Hne IH]].
  - split; [discriminate|]. constructor; [|constructor]. apply not_elem_of_nil.
  - cbn [str_split]. destruct (N.eqb_spec c sep) as [->|Hc].
    + split; [discriminate|]. constructor; [apply not_elem_of_nil | exact IH].
    + destruct (str_split sep t) as [|l ls]; [contradiction|].
      split; [discriminate|]. inversion IH as [|? ? Hl Hls]; subst.
      constructor; [|exact Hls].
      apply not_elem_of_cons. split; [congruence | exact Hl].
Qed.

Lemma str_split_no_sep sep (l : pystr) :
  sep ∉ l -> str_split sep l = [l].
Proof.
  induction l as [|c t IH]; intros H; [reflexivity|].
  apply not_elem_of_cons in H as [Hc Ht]. cbn [str_split].
  destruct (N.eqb_spec c sep) as [->|_]; [contradiction|].
  now rewrite (IH Ht).
Qed.

Lemma str_split_app sep (l : pystr) rest :
  sep ∉ l -> str_split sep (l ++ sep :: rest) = l :: str_split sep rest.
Proof.
  induction l as [|c t IH]; intros H.
  - cbn [app str_split]. now rewrite N.eqb_refl.
  - apply not_elem_of_cons in H as [Hc Ht]. cbn [app str_split].
    destruct (N.eqb_spec c sep) as [->|_]; [contradiction|].
    now rewrite (IH Ht).
Qed.

(** Lines without the separator come back from joining and splitting. *)
Lemma str_split_join sep ls :
  ls <> [] -> Forall (fun l => sep ∉ l) ls ->
  str_split sep (str_join sep ls) = ls.
Proof.
  induction ls as [|l ls IH]; intros Hne H; [contradiction|].
  inversion H as [|? ? Hl Hls]; subst.
  destruct ls as [|l' ls'].
  - cbn [str_join]. now apply str_split_no_sep.
  - change (str_join sep (l :: l' :: ls'))
      with (l ++ sep :: str_join sep (l' :: ls')).
    rewrite (str_split_app sep l _ Hl). f_equal. now apply IH.
Qed.

Lemma word_token_one_line s : word_token s = true -> newline ∉ s.
Proof.
  intros H Hin. apply word_token_forallb in H.
  rewrite forallb_forall in H. apply list_elem_of_In, H in Hin.
  discriminate.
Qed.

(** X18.  A second run of the same substitution finds nothing left to
    do.  For an old and a new keycode that are different words, the new
    one not beginning with a digit, the file the first run wrote is
    read back as the same lines, none of them is selected again, and
    the second run writes the same bytes and prints nothing. *)
Theorem second_run_changes_nothing p old new w content text content' :
  dry_run ARGS = false ->
  word_token old = true -> word_token new = true ->
  template_safe new = true -> old <> new ->
  files w !! path_str p = Some content ->
  utf8_decode content = Some text ->
  utf8_encode (str_join newline
                 (line_pass old new <$> str_split newline text))
  = Some content' ->
  let w1 := written_back p content' [] w in
  format_file p [(JString old, JString new)] w = (w1, Ret tt) /\
  hits old (line_pass old new <$> str_split newline text) = 0%nat /\
  format_file p [(JString old, JString new)] w1
  = (written_back p content' [] w1, Ret tt) /\
  files (written_back p content' [] w1) = files w1.
Proof.
  intros Hdry Ho Hnew Hsafe Hne Hf Hd He w1.
  set (lines := str_split newline text) in *.
  set (lines1 := line_pass old new <$> lines) in *.
  assert (line_pass old new <$> lines1 = lines1) as Hfix.
  { unfold lines1. rewrite <- list_fmap_compose. apply list_fmap_ext.
    intros i line _. now apply line_pass_twice. }
  assert (str_split newline (str_join newline lines1) = lines1) as Hsplit.
  { destruct (str_split_lines newline text) as [Hnil Hall].
    fold lines in Hnil, Hall. apply str_split_join.
    - unfold lines1. destruct lines; [contradiction | discriminate].
    - unfold lines1. apply Forall_fmap. eapply Forall_impl; [exact Hall|].
      intros line Hline Hin. cbn in Hin.
      apply (line_pass_elem old new newline line Ho) in Hin as [Hin|Hin];
        [contradiction | now apply word_token_one_line in Hin]. }
  assert (Forall (fun l => re_search (keycode_regex old) l = false) lines1)
    as Hnone.
  { unfold lines1. apply Forall_fmap, Forall_forall. intros line _. cbn.
    unfold line_pass. rewrite !(re_search_has_binding old _ Ho).
    destruct (has_binding old line) eqn:Hb; [|exact Hb].
    rewrite (sub_from_scan old new line 0 [] Ho).
    now apply scanned_line_has_no_binding. }
  split; [now apply (format_file_one p old new w content text content')|].
  split.
  { rewrite <- lines_to_update_hits.
    now rewrite (lines_to_update_none _ _ Hnone). }
  split.
  - apply (format_file_one p old new w1 content' (str_join newline lines1)
             content' Hdry Ho Hsafe).
    + cbn [w1 written_back files]. apply lookup_insert_eq.
    + now apply utf8_decode_encode.
    + now rewrite Hsplit, Hfix.
  - cbn [w1 written_back files]. apply insert_insert_eq.
Qed.

End Convert.

(** * The claims on sample inputs *)

(** C1: a dry run over the sample keymap does write the file back. *)
Lemma dry_run_performs_a_write :
  dry_run dry_args = true /\
  written (one_file keymap_content) = [] /\
  written (format_file latin1_isalnum dry_args sample_path
             [(JString (py "OLD"), JString (py "NEW"))]
             (one_file keymap_content)).1
  = [(py "a.keymap", keymap_content)].
Proof. repeat split. Qed.

Lemma dry_run_writes_back_same_bytes_witness :
  dry_run dry_args = true /\
  literal (py "OLD|MOD") = false /\
  format_file latin1_isalnum dry_args sample_path mixed_table
    (one_file keymap_content)
  = ({| files := files (one_file keymap_content); dirs := ∅;
        stdout := [py "Would have replaced OLD with NEW on 2 lines.";
                   py "Would have replaced OLD|MOD with NEW on 4 lines.";
                   py "a.keymap contains MOD, which currently has no replacement!"];
        written := [(py "a.keymap", keymap_content)] |}, Ret tt).
Proof.
  split; [reflexivity|]. split; [reflexivity|].
  refine (eq_trans
            (proj1 (proj2 (proj2
               (dry_run_writes_back_same_bytes latin1_isalnum dry_args
                  sample_path (one_file keymap_content) eq_refl)))
               mixed_table keymap_content keymap_text
               [would_replace_message (py "OLD") (py "NEW")
                  (found latin1_isalnum (keycode_regex (py "OLD"))
                         (str_split newline keymap_text));
                would_replace_message (py "OLD|MOD") (py "NEW")
                  (found latin1_isalnum either_pattern
                         (str_split newline keymap_text));
                no_replacement_message (path_str sample_path) (py "MOD")]
               eq_refl eq_refl _) _);
    [|vm_compute; reflexivity].
  apply (dry_reported_would_replace latin1_isalnum _ _ _ _
           (py "OLD") (py "NEW") (keycode_regex (py "OLD")));
    [vm_compute; reflexivity | vm_compute; reflexivity
    | vm_compute; discriminate | discriminate | reflexivity |].
  apply (dry_reported_would_replace latin1_isalnum _ _ _ _
           (py "OLD|MOD") (py "NEW") either_pattern);
    [vm_compute; reflexivity | vm_compute; reflexivity
    | vm_compute; discriminate | discriminate | reflexivity |].
  apply (dry_reported_no_replacement latin1_isalnum _ _ _
           (py "MOD") (keycode_regex (py "MOD")));
    [vm_compute; reflexivity | vm_compute; reflexivity
    | vm_compute; discriminate |].
  apply (dry_reported_absent latin1_isalnum _ _ _ _
           (py "GONE") (keycode_regex (py "GONE")));
    [vm_compute; reflexivity | vm_compute; reflexivity
    | vm_compute; reflexivity |].
  constructor.
Defined.

(** C2: an entry without [to] makes the loader raise [KeyError]. *)
Lemma missing_to_raises_KeyError :
  load_substitutions sample_json_load (py "substitutions.json")
    (substitution_file_world no_to_content)
  = (substitution_file_world no_to_content, Raise (KeyError (py "to"))).
Proof. reflexivity. Qed.

Lemma load_substitutions_in_order_witness :
  load_substitutions sample_json_load (py "substitutions.json")
    (substitution_file_world table_content)
  = (substitution_file_world table_content,
     Ret [(JString (py "OLD"), JString (py "NEW"));
          (JString (py "GONE"), JNull)]) /\
  load_substitutions sample_json_load (py "substitutions.json")
    (substitution_file_world no_to_content)
  = (substitution_file_world no_to_content, Raise (KeyError (py "to"))).
Proof.
  split.
  - apply (proj1 (load_substitutions_in_order sample_json_load
                    (py "substitutions.json")
                    (substitution_file_world table_content) table_content
                    [JObject [(py "from", JString (py "OLD"));
                              (py "to", JString (py "NEW"))];
                     JObject [(py "from", JString (py "GONE"));
                              (py "to", JNull)]]
                    eq_refl eq_refl)).
    repeat constructor; eexists; repeat split; reflexivity.
  - apply (proj2 (load_substitutions_in_order sample_json_load
                    (py "substitutions.json")
                    (substitution_file_world no_to_content) no_to_content
                    [JObject [(py "from", JString (py "A"))]]
                    eq_refl eq_refl)
                 [] [(py "from", JString (py "A"))] []);
      [reflexivity | constructor | | reflexivity].
    exists (JString (py "A")). reflexivity.
Defined.

Lemma unmatched_file_keeps_its_bytes_witness :
  utf8_decode unicode_content = Some unicode_text /\
  format_file latin1_isalnum run_args sample_path
    [(JString (py "OLD"), JString (py "NEW"))] (one_file unicode_content)
  = ({| files := files (one_file unicode_content); dirs := ∅; stdout := [];
        written := [(py "a.keymap", unicode_content)] |}, Ret tt).
Proof.
  split; [reflexivity|].
  apply (unmatched_file_keeps_its_bytes latin1_isalnum run_args sample_path
           [(JString (py "OLD"), JString (py "NEW"))]
           (one_file unicode_content) unicode_content unicode_text);
    [reflexivity | reflexivity | reflexivity |].
  constructor; [|constructor].
  exists (py "OLD"), (keycode_regex (py "OLD")).
  split; [reflexivity|]. split; [reflexivity|].
  repeat constructor.
Defined.

Lemma kp_line_rewritten_witness :
  word_token latin1_isalnum (py "OLD") = true /\
  template_safe (py "NEW") = true /\
  format_file latin1_isalnum run_args sample_path
    [(JString (py "OLD"), JString (py "NEW"))] (one_file keymap_content)
  = (written_back sample_path keymap_content_after []
       (one_file keymap_content), Ret tt).
Proof.
  split; [reflexivity|]. split; [reflexivity|].
  exact (proj1 (kp_line_rewritten latin1_isalnum run_args sample_path
                  (py "OLD") (py "NEW") (one_file keymap_content)
                  keymap_content keymap_text keymap_content_after
                  eq_refl eq_refl eq_refl eq_refl eq_refl eq_refl)).
Defined.

Lemma no_replacement_is_reported_witness :
  hits latin1_isalnum (py "OLD") (str_split newline keymap_text) = 2%nat /\
  format_file latin1_isalnum run_args sample_path
    [(JString (py "OLD"), JNull)] (one_file keymap_content)
  = ({| files := files (one_file keymap_content); dirs := ∅;
        stdout := [py "a.keymap contains OLD, which currently has no replacement!"];
        written := [(py "a.keymap", keymap_content)] |}, Ret tt).
Proof.
  split; [reflexivity|].
  exact (proj1 (no_replacement_is_reported latin1_isalnum run_args sample_path
                  (py "OLD") (one_file keymap_content)
                  keymap_content keymap_text
                  eq_refl eq_refl eq_refl eq_refl
                  ltac:(vm_compute; discriminate))).
Defined.

Lemma bad_substitution_file_aborts_witness :
  exists message,
    main latin1_isalnum sample_json_load run_args (one_file keymap_content)
    = (emit [message] (one_file keymap_content), Ret tt) /\
    files (main latin1_isalnum sample_json_load run_args
                (one_file keymap_content)).1
    = files (one_file keymap_content) /\
    written (main latin1_isalnum sample_json_load run_args
                  (one_file keymap_content)).1 = [].
Proof.
  apply (bad_substitution_file_aborts latin1_isalnum sample_json_load
           run_args (one_file keymap_content)).
  left. reflexivity.
Defined.

Lemma substitutions_fold_left_to_right_witness :
  Forall (fun s => plain s = true)
         [(py "OLD", Some (py "MID")); (py "MID", Some (py "NEW"))] /\
  format_file latin1_isalnum run_args sample_path
    (to_json <$> [(py "OLD", Some (py "MID")); (py "MID", Some (py "NEW"))])
    (one_file keymap_content)
  = (written_back sample_path keymap_content_after []
       (one_file keymap_content), Ret tt).
Proof.
  split; [repeat constructor|].
  exact (proj1 (substitutions_fold_left_to_right latin1_isalnum run_args
                  sample_path
                  [(py "OLD", Some (py "MID")); (py "MID", Some (py "NEW"))]
                  (one_file keymap_content)
                  keymap_content keymap_text keymap_content_after
                  eq_refl ltac:(repeat constructor) eq_refl eq_refl eq_refl)).
Defined.



Lemma inc_dec_line_rewritten_witness :
  str_split newline keymap_text !! 2%nat = Some (py "&inc_dec_kp OLD") /\
  (line_pass latin1_isalnum (py "OLD") (py "NEW")
     <$> str_split newline keymap_text) !! 2%nat
  = Some (py "&inc_dec_kp NEW").
Proof.
  split; [reflexivity|].
  exact (proj1 (proj2 (inc_dec_line_rewritten latin1_isalnum run_args
                         sample_path (py "OLD") (py "NEW")
                         (one_file keymap_content)
                         keymap_content keymap_text keymap_content_after
                         eq_refl eq_refl eq_refl eq_refl eq_refl eq_refl))
               2%nat eq_refl).
Defined.

Lemma later_argument_is_left_alone_witness :
  str_split newline keymap_text !! 3%nat = Some (py "&mt MOD OLD") /\
  (line_pass latin1_isalnum (py "OLD") (py "NEW")
     <$> str_split newline keymap_text) !! 3%nat
  = Some (py "&mt MOD OLD").
Proof.
  split; [reflexivity|].
  exact (proj2 (proj2 (later_argument_is_left_alone latin1_isalnum run_args
                         sample_path (py "OLD") (py "NEW")
                         (one_file keymap_content)
                         keymap_content keymap_text keymap_content_after
                         eq_refl eq_refl eq_refl eq_refl eq_refl eq_refl))
               3%nat (py "mt") (py "MOD") eq_refl eq_refl
               ltac:(discriminate) eq_refl).
Defined.

(** * Where the hypotheses on keycodes end *)

(** A new keycode that begins with a digit is read together with the
    [\1] before it, as a reference to a group the pattern lacks. *)
Example digit_led_replacement_raises :
  template_safe (py "1") = false /\
  re_sub latin1_isalnum (keycode_regex (py "OLD"))
         (replacement_keycode (py "1")) (py "&kp OLD")
  = Raise re_error.
Proof. split; vm_compute; reflexivity. Qed.

(** A new keycode that begins with three octal digits is read with
    the [\1] before it as a character and a digit: the first run
    leaves a line that the second run rewrites again. *)
Example octal_new_keycode_is_rewritten_twice :
  template_safe (py "101") = false /\
  re_sub latin1_isalnum (keycode_regex (py "OLD"))
         (replacement_keycode (py "101")) (py "&&kp OLD OLD")
  = Ret (py "&H1 OLD") /\
  re_sub latin1_isalnum (keycode_regex (py "OLD"))
         (replacement_keycode (py "101")) (py "&H1 OLD")
  = Ret (py "H1").
Proof.
  split; [reflexivity|].
  split; [vm_compute; reflexivity|]. vm_compute. reflexivity.
Qed.

(** An old keycode with a bar splits the whole pattern in two branches;
    the second branch matches without an anchor. *)
Example bar_in_old_keycode_splits_pattern :
  literal (py "A|B") = false /\
  (exists pat,
      re_compile (old_keycode_pattern (py "A|B")) = Some pat /\
      re_sub latin1_isalnum pat (replacement_keycode (py "NEW"))
             (py "&kp A B")
      = Ret (py "&kp NEW NEW")).
Proof.
  split; [reflexivity|]. eexists.
  split; [vm_compute; reflexivity|]. vm_compute. reflexivity.
Qed.

(** * The further properties on sample inputs *)

Lemma main_dry_run_changes_no_file_witness :
  dry_run dry_args = true /\
  files (main latin1_isalnum sample_json_load dry_args project_world).1
  = files project_world.
Proof.
  split; [reflexivity|].
  exact (main_dry_run_changes_no_file latin1_isalnum sample_json_load
           dry_args project_world eq_refl).
Defined.

Lemma failing_file_ends_the_walk_witness :
  format_all latin1_isalnum run_args
    [Path (py "a.keymap"); Path (py "b.keymap"); Path (py "c.keymap")]
    [(JString (py "OLD"), JString (py "NEW"))] walk_world
  = ({| files := {[ py "a.keymap" := keymap_content_after;
                    py "c.keymap" := unicode_content ]};
        dirs := ∅;
        stdout := [py "Sorting out a.keymap...."; py "Sorting out b.keymap...."];
        written := [(py "a.keymap", keymap_content_after)] |},
     Raise OSError).
Proof.
  refine (proj1 (failing_file_ends_the_walk latin1_isalnum run_args
                  [Path (py "a.keymap")] (Path (py "b.keymap"))
                  [Path (py "c.keymap")]
                  [(JString (py "OLD"), JString (py "NEW"))] walk_world
                  (format_all latin1_isalnum run_args [Path (py "a.keymap")]
                     [(JString (py "OLD"), JString (py "NEW"))] walk_world).1
                  _ (Raise OSError) _ _ _)).
  - vm_compute. reflexivity.
  - vm_compute. reflexivity.
  - discriminate.
Defined.

Lemma unreadable_keymap_raises_witness :
  utf8_decode [xff] = None /\
  format_file latin1_isalnum run_args sample_path
    [(JString (py "OLD"), JString (py "NEW"))] (one_file [xff])
  = (one_file [xff], Raise UnicodeDecodeError).
Proof.
  split; [reflexivity|].
  apply (unreadable_keymap_raises latin1_isalnum run_args sample_path
           [(JString (py "OLD"), JString (py "NEW"))] (one_file [xff])
           UnicodeDecodeError).
  right. exists [xff]. repeat split.
Defined.

Lemma not_a_keymap_path_aborts_witness :
  main latin1_isalnum sample_json_load run_args
    (substitution_file_world table_content)
  = (emit [py "a.keymap doesn't point to a folder or a keymap file! Aborting..."]
       (substitution_file_world table_content), Ret tt).
Proof.
  apply (not_a_keymap_path_aborts latin1_isalnum sample_json_load run_args
           (substitution_file_world table_content)
           (to_json <$> sample_table)).
  - exists table_content. reflexivity.
  - reflexivity.
  - reflexivity.
  - reflexivity.
  - left. reflexivity.
Defined.

Lemma main_rewrites_the_keymap_file_witness :
  Forall (fun s => plain s = true) sample_table /\
  main latin1_isalnum sample_json_load run_args project_world
  = (written_back sample_path keymap_content_after [] project_world, Ret tt).
Proof.
  split; [repeat constructor|].
  apply (main_rewrites_the_keymap_file latin1_isalnum sample_json_load
           run_args project_world sample_table
           [JObject [(py "from", JString (py "OLD"));
                     (py "to", JString (py "NEW"))];
            JObject [(py "from", JString (py "GONE")); (py "to", JNull)]]
           table_content keymap_content keymap_text keymap_content_after);
    try reflexivity.
  - repeat constructor; eexists; repeat split; reflexivity.
  - repeat constructor.
Defined.

Lemma missing_from_raises_KeyError_witness :
  load_substitutions malformed_json_load (py "substitutions.json")
    (substitution_file_world no_from_content)
  = (substitution_file_world no_from_content, Raise (KeyError (py "from"))).
Proof.
  apply (missing_from_raises_KeyError malformed_json_load
           (py "substitutions.json")
           (substitution_file_world no_from_content) no_from_content
           [] [(py "to", JString (py "B"))] []);
    [reflexivity | reflexivity | constructor | reflexivity].
Defined.

Lemma element_not_an_object_raises_TypeError_witness :
  load_substitutions malformed_json_load (py "substitutions.json")
    (substitution_file_world string_element_content)
  = (substitution_file_world string_element_content, Raise TypeError).
Proof.
  apply (element_not_an_object_raises_TypeError malformed_json_load
           (py "substitutions.json")
           (substitution_file_world string_element_content)
           string_element_content [] (JString (py "A")) []);
    [reflexivity | reflexivity | constructor | reflexivity].
Defined.

Lemma top_level_not_an_array_raises_TypeError_witness :
  load_substitutions malformed_json_load (py "substitutions.json")
    (substitution_file_world object_content)
  = (substitution_file_world object_content, Raise TypeError).
Proof.
  apply (top_level_not_an_array_raises_TypeError malformed_json_load
           (py "substitutions.json")
           (substitution_file_world object_content) object_content
           (JObject [(py "from", JString (py "A"));
                     (py "to", JString (py "B"))]));
    reflexivity.
Defined.

Lemma keycode_ending_a_longer_word_is_not_selected_witness :
  word_token latin1_isalnum (py "VOLU") = true /\
  0%nat ∉ lines_to_update latin1_isalnum (keycode_regex (py "VOLU"))
          [py "&kp M_VOLU"].
Proof.
  split; [reflexivity|].
  exact (proj2 (keycode_ending_a_longer_word_is_not_selected latin1_isalnum
                  (py "VOLU") (py "kp") (py "M_") [py "&kp M_VOLU"] 0%nat
                  eq_refl eq_refl eq_refl eq_refl)).
Defined.

Lemma other_binding_names_are_not_selected_witness :
  is_binding_name latin1_isalnum (py "tog") = false /\
  0%nat ∉ lines_to_update latin1_isalnum (keycode_regex (py "OLD"))
          [py "&tog OLD"].
Proof.
  split; [reflexivity|].
  refine (proj2 (other_binding_names_are_not_selected latin1_isalnum
                   (py "OLD") (py "tog") (py "OLD") [py "&tog OLD"] 0%nat
                   eq_refl eq_refl eq_refl _ eq_refl)).
  refine (bool_decide_unpack _ _). vm_compute. exact I.
Defined.

Lemma text_around_a_binding_is_kept_witness :
  word_at latin1_isalnum (py ">; // up" ++ [13]) = false /\
  re_sub latin1_isalnum (keycode_regex (py "OLD"))
         (replacement_keycode (py "NEW"))
         (py "    <&kp OLD>; // up" ++ [13])
  = Ret (py "    <&kp NEW>; // up" ++ [13]).
Proof.
  split; [reflexivity|].
  refine (proj2 (proj2 (text_around_a_binding_is_kept latin1_isalnum
                          (py "OLD") (py "NEW") (py "kp") (py "    <")
                          (py ">; // up" ++ [13])
                          eq_refl eq_refl eq_refl _ _ eq_refl)));
    refine (bool_decide_unpack _ _); vm_compute; exact I.
Defined.

Lemma digit_led_new_keycode_raises_witness :
  is_digit (ch "1") = true /\
  format_file latin1_isalnum run_args sample_path
    [(JString (py "OLD"), JString (py "1ST"))] (one_file keymap_content)
  = (one_file keymap_content, Raise re_error).
Proof.
  split; [reflexivity|].
  apply (digit_led_new_keycode_raises latin1_isalnum run_args sample_path
           (py "OLD") (ch "1") (py "ST") (one_file keymap_content)
           keymap_content keymap_text);
    try reflexivity.
  vm_compute. discriminate.
Defined.

Lemma pattern_is_a_scanner_witness :
  has_binding latin1_isalnum (py "OLD") (py "&kp OLD &mt MOD OLD &kp OLD")
  = true /\
  re_sub latin1_isalnum (keycode_regex (py "OLD"))
         (replacement_keycode (py "NEW")) (py "&kp OLD &mt MOD OLD &kp OLD")
  = Ret (py "&kp NEW &mt MOD OLD &kp NEW").
Proof.
  split; [reflexivity|].
  exact (proj2 (proj2 (pattern_is_a_scanner latin1_isalnum (py "OLD")
                         (py "&kp OLD &mt MOD OLD &kp OLD") eq_refl))
               (py "NEW") eq_refl).
Defined.

Lemma written_file_decodes_again_witness :
  exists lines' content',
    files (written_back sample_path keymap_content_after []
             (one_file keymap_content)) !! path_str sample_path
    = Some content' /\
    utf8_decode content' = Some (str_join newline lines').
Proof.
  apply (written_file_decodes_again latin1_isalnum run_args sample_path
           [(JString (py "OLD"), JString (py "NEW"))]
           (one_file keymap_content)).
  vm_compute. reflexivity.
Defined.

Lemma directory_walk_writes_each_file_once_witness :
  (written (format_all latin1_isalnum run_args
              [Path (py "a.keymap"); Path (py "c.keymap")]
              [(JString (py "OLD"), JString (py "NEW"))] walk_world).1).*1
  = [py "a.keymap"; py "c.keymap"].
Proof.
  refine (proj1 (directory_walk_writes_each_file_once latin1_isalnum run_args
                   [(JString (py "OLD"), JString (py "NEW"))]
                   [Path (py "a.keymap"); Path (py "c.keymap")]
                   walk_world _ _)).
  vm_compute. reflexivity.
Defined.

Lemma second_run_changes_nothing_witness :
  py "OLD" <> py "NEW" /\
  format_file latin1_isalnum run_args sample_path
    [(JString (py "OLD"), JString (py "NEW"))]
    (written_back sample_path keymap_content_after []
       (one_file keymap_content))
  = (written_back sample_path keymap_content_after []
       (written_back sample_path keymap_content_after []
          (one_file keymap_content)), Ret tt).
Proof.
  split; [discriminate|].
  exact (proj1 (proj2 (proj2
           (second_run_changes_nothing latin1_isalnum run_args sample_path
              (py "OLD") (py "NEW") (one_file keymap_content)
              keymap_content keymap_text keymap_content_after
              eq_refl eq_refl eq_refl eq_refl ltac:(discriminate)
              eq_refl eq_refl eq_refl)))).
Defined.
